(** Verification of the numerical helpers and control loops of the
    automation scripts ([calibration/beam_shift_main.py] and
    [tiling/main.py]).

    Floating-point numbers are modelled as real numbers; where the value
    of a float operation leaves the reals (division by zero, arccos outside
    [-1,1]) the value type [fvalue] adds the IEEE infinities and NaN.
    Python exceptions are modelled by the result type [exc]. *)

From Stdlib Require Import Reals Lra Lia ZArith List Bool.
Import ListNotations.

(** * Python results: a value or a raised exception *)

Inductive pyerror :=
| ValueError
| NameError.

Inductive exc (A : Type) :=
| Ok (a : A)
| Raise (e : pyerror).
Arguments Ok {A} a.
Arguments Raise {A} e.

(** * Calibration: image space <-> beam shift space *)

Module Calibration.
Local Open Scope R_scope.

(** [autoscript ... structures.Point] *)
Record Point := mkPoint { x : R; y : R }.

(** A 2x2 numpy matrix, row major. *)
Record Mat2 := mkMat2 { m00 : R; m01 : R; m10 : R; m11 : R }.

Definition matmul_vec (M : Mat2) (v : R * R) : R * R :=
  (m00 M * fst v + m01 M * snd v, m10 M * fst v + m11 M * snd v).

(** [ndarray.T] *)
Definition transpose (M : Mat2) : Mat2 :=
  mkMat2 (m00 M) (m10 M) (m01 M) (m11 M).

(** [np.radians] and [np.degrees] *)
Definition radians (a : R) : R := a * (PI / 180).
Definition degrees (r : R) : R := r * (180 / PI).

Definition rotation_matrix (theta : R) : Mat2 :=
  mkMat2 (cos theta) (- sin theta) (sin theta) (cos theta).

(** [image_to_beam_shift]: the column vector [px_col_vector_xy] is the
    pair [(x, y)]. *)
Definition image_to_beam_shift (px_col_vector_xy : R * R) (pixel_size : R)
    (angle_deg : R) : Point :=
  let image_to_beam_shift_angle := radians angle_deg in
  let image_to_beam_shift_rotation_matrix :=
    rotation_matrix image_to_beam_shift_angle in
  let vector_meters :=
    (fst px_col_vector_xy * pixel_size, snd px_col_vector_xy * pixel_size) in
  let transformed_vector :=
    matmul_vec image_to_beam_shift_rotation_matrix vector_meters in
  let reflection_factor := -1 in
  mkPoint (fst transformed_vector) (snd transformed_vector * reflection_factor).

(** [beam_to_image_shift] *)
Definition beam_to_image_shift (beam_shift_col_vector_xy : Point)
    (pixel_size : R) (angle_deg : R) : R * R :=
  let image_to_beam_shift_angle := radians angle_deg in
  let image_to_beam_shift_rotation_matrix :=
    rotation_matrix image_to_beam_shift_angle in
  let rotation_matrix_inverse := transpose image_to_beam_shift_rotation_matrix in
  let beam_shift_vector_np :=
    (x beam_shift_col_vector_xy, y beam_shift_col_vector_xy) in
  let beam_shift_vector_refl :=
    (fst beam_shift_vector_np, snd beam_shift_vector_np * -1) in
  let vector_meters := matmul_vec rotation_matrix_inverse beam_shift_vector_refl in
  (fst vector_meters / pixel_size, snd vector_meters / pixel_size).

(** ** Float values of the angle computation *)

Inductive fvalue :=
| Fin (r : R)
| PosInf
| NegInf
| NaN.

(** IEEE division; the divisor in the code is a product of norms, so a
    zero divisor is +0. *)
Definition fdiv (a b : R) : fvalue :=
  if Req_EM_T b 0 then
    if Rlt_dec 0 a then PosInf else if Rlt_dec a 0 then NegInf else NaN
  else Fin (a / b).

(** [np.clip(v, lo, hi)]: NaN propagates, infinities are clamped. *)
Definition clip (v : fvalue) (lo hi : R) : fvalue :=
  match v with
  | Fin r => Fin (Rmin (Rmax r lo) hi)
  | PosInf => Fin hi
  | NegInf => Fin lo
  | NaN => NaN
  end.

(** [np.arccos]: NaN outside [-1, 1]. *)
Definition arccos (v : fvalue) : fvalue :=
  match v with
  | Fin r =>
      if Rle_dec (-1) r then if Rle_dec r 1 then Fin (acos r) else NaN
      else NaN
  | _ => NaN
  end.

Definition fneg (v : fvalue) : fvalue :=
  match v with
  | Fin r => Fin (- r)
  | PosInf => NegInf
  | NegInf => PosInf
  | NaN => NaN
  end.

Definition fdegrees (v : fvalue) : fvalue :=
  match v with
  | Fin r => Fin (degrees r)
  | w => w
  end.

(** [np.dot], [np.linalg.norm] and [np.cross] on 2-vectors *)
Definition dot (v w : R * R) : R := fst v * fst w + snd v * snd w.
Definition norm (v : R * R) : R := sqrt (fst v * fst v + snd v * snd v).
Definition cross (v w : R * R) : R := fst v * snd w - snd v * fst w.

(** [calculate_signed_angle_between_vectors]: the body raises nothing, so
    its result is always [Ok]. *)
Definition calculate_signed_angle_between_vectors (vec1 vec2 : R * R)
    : exc fvalue :=
  let dot_product := dot vec1 vec2 in
  let magnitude_vec1 := norm vec1 in
  let magnitude_vec2 := norm vec2 in
  let cos_theta := fdiv dot_product (magnitude_vec1 * magnitude_vec2) in
  let cos_theta := clip cos_theta (-1) 1 in
  let angle_radians := arccos cos_theta in
  let cross_product := cross vec1 vec2 in
  let angle_radians :=
    if Rlt_dec cross_product 0 then fneg angle_radians else angle_radians in
  let angle_degrees := fdegrees angle_radians in
  Ok angle_degrees.

End Calibration.

(** * scipy.signal.correlate2d, np.argmax and np.unravel_index

    The element type is left abstract: [vzero], [vadd], [vmul] are the
    array's zero, sum and product, and [vgtb a b] is [a > b]. *)

Module Signal.
Section Signal.
Variable V : Type.
Variable vzero : V.
Variables vadd vmul : V -> V -> V.
Variable vgtb : V -> V -> bool.

(** A 2-D array as its list of rows. *)
Definition array2 := list (list V).

Definition nrows (a : array2) : nat := length a.
Definition ncols (a : array2) : nat := length (hd [] a).

Definition get (a : array2) (i j : nat) : V := nth j (nth i a []) vzero.

(** Reading with signed indices; outside the array the value is the fill
    value 0 ([correlate2d]'s default [fillvalue]). *)
Definition getZ (a : array2) (i j : Z) : V :=
  if ((0 <=? i) && (i <? Z.of_nat (nrows a)) &&
      (0 <=? j) && (j <? Z.of_nat (ncols a)))%Z
  then get a (Z.to_nat i) (Z.to_nat j) else vzero.

Fixpoint vsum (f : nat -> V) (n : nat) : V :=
  match n with
  | O => vzero
  | S n' => vadd (vsum f n') (f n')
  end.

(** The "valid" correlation of [in1] with the kernel [in2], [in2] no larger
    than [in1] in both axes. *)
Definition valid_core (in1 in2 : array2) : array2 :=
  let h := nrows in2 in
  let w := ncols in2 in
  map (fun i =>
    map (fun j =>
      vsum (fun k => vsum (fun l => vmul (get in1 (i + k) (j + l)) (get in2 k l)) w) h)
      (seq 0 (ncols in1 - w + 1)))
    (seq 0 (nrows in1 - h + 1)).

(** [correlate2d(in1, in2, mode='valid')]: when [in2] is the larger input
    the inputs are swapped and the output reversed in both axes; when
    neither input is at least as large as the other in every axis scipy
    raises [ValueError]. *)
Definition correlate2d_valid (in1 in2 : array2) : exc array2 :=
  if (ncols in2 <=? ncols in1) && (nrows in2 <=? nrows in1) then
    Ok (valid_core in1 in2)
  else if (ncols in1 <=? ncols in2) && (nrows in1 <=? nrows in2) then
    Ok (rev (map (@rev V) (valid_core in2 in1)))
  else Raise ValueError.

(** [correlate2d(in1, in2, mode='full')]: output of shape
    [(H + h - 1, W + w - 1)] with
    [out[i][j] = sum_{k,l} in1[i + k - (h-1)][j + l - (w-1)] * in2[k][l]]. *)
Definition correlate2d_full (in1 in2 : array2) : array2 :=
  let h := nrows in2 in
  let w := ncols in2 in
  map (fun i =>
    map (fun j =>
      vsum (fun k => vsum (fun l =>
        vmul (getZ in1 (Z.of_nat (i + k) - Z.of_nat (h - 1))
                       (Z.of_nat (j + l) - Z.of_nat (w - 1)))
             (get in2 k l)) w) h)
      (seq 0 (ncols in1 + w - 1)))
    (seq 0 (nrows in1 + h - 1)).

(** [np.argmax] on the C-order flattening: the first index holding the
    maximum; an empty array raises [ValueError]. *)
Fixpoint argmax_from (l : list V) (i best : nat) (bestv : V) : nat :=
  match l with
  | [] => best
  | v :: l' =>
      if vgtb v bestv then argmax_from l' (S i) i v
      else argmax_from l' (S i) best bestv
  end.

Definition argmax (a : array2) : exc nat :=
  match concat a with
  | [] => Raise ValueError
  | v :: l => Ok (argmax_from l 1 0 v)
  end.

(** [np.unravel_index(idx, shape)] for a 2-D shape. *)
Definition unravel_index (idx : nat) (shape : nat * nat) : exc (nat * nat) :=
  if idx <? fst shape * snd shape then
    Ok (idx / snd shape, idx mod snd shape)
  else Raise ValueError.

Definition shape (a : array2) : nat * nat := (nrows a, ncols a).

End Signal.
End Signal.

(** [tiling/main.py: cross_correlate]: the peak index of the valid-mode
    correlation, as a pair of Python ints (row, column). *)
Module Tiling.
Section CrossCorrelate.
Variable V : Type.
Variable vzero : V.
Variables vadd vmul : V -> V -> V.
Variable vgtb : V -> V -> bool.

Definition cross_correlate (image template : Signal.array2 V) : exc (Z * Z) :=
  match Signal.correlate2d_valid V vzero vadd vmul image template with
  | Raise e => Raise e
  | Ok corr_map =>
      match Signal.argmax V vgtb corr_map with
      | Raise e => Raise e
      | Ok i =>
          match Signal.unravel_index i (Signal.shape V corr_map) with
          | Raise e => Raise e
          | Ok (r, c) => Ok (Z.of_nat r, Z.of_nat c)
          end
      end
  end.

End CrossCorrelate.

Definition SHIFT_TOLERANCE_PIXELS : Z := 5.

(** The acceptance test of the correction sub-loop. *)
Definition within_tolerance (peak_index : Z * Z) : bool :=
  (Z.abs (fst peak_index) <=? SHIFT_TOLERANCE_PIXELS)%Z &&
  (Z.abs (snd peak_index) <=? SHIFT_TOLERANCE_PIXELS)%Z.

(** ** The tile acquisition loop *)

(** Observable steps of the script: commanding the stage for tile (i, j),
    acquiring tile (i, j), entering the correction sub-loop that
    correlates the last two tiles and re-acquires tile (i, j). *)
Inductive event :=
| StageMove (i j : nat)
| AcquireTile (i j : nat)
| CorrectionLoop (i j : nat).

(** [for j in range(NO_COLS_TO_TILE)]: the loop variable [j] outlives the
    loop; [jb] is its binding ([None] while unbound). *)
Fixpoint cols_loop (i : nat) (js : list nat) (jb : option nat)
    : list event * option nat :=
  match js with
  | [] => ([], jb)
  | j :: js' =>
      let (ev, jb') := cols_loop i js' (Some j) in
      (StageMove i j :: AcquireTile i j :: ev, jb')
  end.

(** [for i in range(NO_ROWS_TO_TILE)]: the body is the column loop followed
    by [if j > 0:] and its correction sub-loop, at the indentation of the
    [for j] statement. Reading an unbound [j] raises [NameError]. *)
Fixpoint rows_loop (is : list nat) (cols : nat) (jb : option nat)
    : exc (list event) :=
  match is with
  | [] => Ok []
  | i :: is' =>
      let (ev, jb') := cols_loop i (seq 0 cols) jb in
      match jb' with
      | None => Raise NameError
      | Some j =>
          let corr := if 0 <? j then [CorrectionLoop i j] else [] in
          match rows_loop is' cols jb' with
          | Raise e => Raise e
          | Ok rest => Ok (ev ++ corr ++ rest)
          end
      end
  end.

Definition tiling_events (NO_ROWS_TO_TILE NO_COLS_TO_TILE : nat)
    : exc (list event) :=
  rows_loop (seq 0 NO_ROWS_TO_TILE) NO_COLS_TO_TILE None.

Definition NO_COLS_TO_TILE : nat := 2.
Definition NO_ROWS_TO_TILE : nat := 1.

(** ** The correction sub-loop ([while True:] of [tiling/main.py]) *)

Section CorrectionLoop.
(** [A] is the type of acquired frames; [peak_of current] is the peak
    index that [cross_correlate] returns for the binned [current] frame
    against the template cut from the previous tile; [acquire n] is the
    frame obtained by the re-acquisition after the [n]-th stage
    correction. *)
Variable A : Type.
Variable peak_of : A -> Z * Z.
Variable acquire : nat -> A.

(** One iteration per unit of [fuel]; [None] means the fuel ran out.
    The result is [(correction_attempts, images_list[-1])] at [break]. *)
Fixpoint correction_loop (fuel : nat) (correction_attempts : nat) (current : A)
    : option (nat * A) :=
  match fuel with
  | O => None
  | S fuel' =>
      if within_tolerance (peak_of current) then
        Some (correction_attempts, current)
      else
        let current' := acquire correction_attempts in
        let correction_attempts' := S correction_attempts in
        if correction_attempts' =? 10 then Some (correction_attempts', current')
        else correction_loop fuel' correction_attempts' current'
  end.

End CorrectionLoop.

End Tiling.

(** * [bin_image] (identical in [calibration/beam_shift_main.py] and
    [tiling/main.py]) *)

Module Binning.
Local Open Scope R_scope.

(** [image.reshape(256, f, 256, f)] on the C-order flattening, then a sum
    over axes 1 and 3 and a division by [f * f]. [reshape] raises
    [ValueError] unless the element count is [256 * f * 256 * f]. The
    element [[a][p][b][q]] of the reshaped array is the flat element
    [((a * f + p) * 256 + b) * f + q]. (For [f = 0] numpy divides by zero
    and gives NaN; reals have no NaN, and no statement below uses
    [f = 0].) *)
Definition bin_image (image : list (list R)) (bin_factor : nat)
    : exc (list (list R)) :=
  let flat := concat image in
  if Nat.eqb (length flat) (256 * bin_factor * 256 * bin_factor) then
    Ok (map (fun a => map (fun b =>
          Signal.vsum R 0 Rplus (fun p => Signal.vsum R 0 Rplus (fun q =>
            nth (((a * bin_factor + p) * 256 + b) * bin_factor + q) flat 0)
            bin_factor) bin_factor
          / INR (bin_factor * bin_factor))
        (seq 0 256)) (seq 0 256))
  else Raise ValueError.

(** Mean of the [f x f] block of [image] whose top-left sample is
    [(a * f, b * f)] (rows, then columns). *)
Definition block_mean (image : list (list R)) (f a b : nat) : R :=
  Signal.vsum R 0 Rplus (fun p => Signal.vsum R 0 Rplus (fun q =>
    nth (b * f + q) (nth (a * f + p) image []) 0) f) f
  / INR (f * f).

End Binning.

(** * [calibration/beam_shift_main.py: compute_translation_vector] *)

Module TranslationVector.
Import Signal.
Section TranslationVector.
Variable V : Type.
Variable vzero : V.
Variables vadd vmul : V -> V -> V.
Variable vgtb : V -> V -> bool.

(** Peak of the full correlation minus [correlation.shape // 2], then
    flipped from (y, x) to (x, y). *)
Definition compute_translation_vector (current_im template : array2 V)
    : exc (Z * Z) :=
  let correlation := correlate2d_full V vzero vadd vmul current_im template in
  match argmax V vgtb correlation with
  | Raise e => Raise e
  | Ok i =>
      match unravel_index i (shape V correlation) with
      | Raise e => Raise e
      | Ok (pr, pc) =>
          let center := (nrows V correlation / 2, ncols V correlation / 2) in
          let translation_vector :=
            (Z.of_nat pr - Z.of_nat (fst center),
             Z.of_nat pc - Z.of_nat (snd center))%Z in
          Ok (snd translation_vector, fst translation_vector)
      end
  end.

End TranslationVector.

(** Synthetic test input: an [H x W] zero canvas with [template] written
    at top-left corner [(r, c)]. *)
Definition embed_template (H W r c : nat) (template : array2 Z) : array2 Z :=
  map (fun a => map (fun b =>
    if (r <=? a) && (a <? r + nrows Z template) &&
       (c <=? b) && (b <? c + ncols Z template)
    then get Z 0%Z template (a - r) (b - c) else 0%Z)
    (seq 0 W)) (seq 0 H).

(** The translation estimator on integer images. *)
Definition compute_translation_vector_Z :=
  compute_translation_vector Z 0%Z Z.add Z.mul Z.gtb.

End TranslationVector.

(** * Integer-indexed finite sums, for reasoning about correlations *)

Module ZSum.

(** [zsum lo n f] is [f lo + f (lo + 1) + ... + f (lo + n - 1)]. *)
Definition zsum (lo : Z) (n : nat) (f : Z -> Z) : Z :=
  Signal.vsum Z 0%Z Z.add (fun i => f (lo + Z.of_nat i)%Z) n.

(** Correlation of a template (read through [T], zero outside the
    [h x w] box) with itself displaced by [(d1, d2)]. *)
Definition autocorr (T : Z -> Z -> Z) (h w : nat) (d1 d2 : Z) : Z :=
  zsum 0 h (fun a => zsum 0 w (fun b => T (a + d1)%Z (b + d2)%Z * T a b)%Z).

End ZSum.

(** * Python's [int()] on floats, and slicing *)

Module PyNum.
Local Open Scope R_scope.

(** [int(x)] truncates toward zero; [Int_part] is the floor. *)
Definition py_int (x : R) : Z :=
  if Rle_dec 0 x then Int_part x else (- Int_part (- x))%Z.

(** [l[k:]]: a negative start counts from the end and is clamped at 0; a
    start past the end gives the empty list. *)
Definition py_slice_from {A : Type} (l : list A) (k : Z) : list A :=
  if (0 <=? k)%Z then skipn (Z.to_nat k) l
  else skipn (Z.to_nat (Z.of_nat (length l) + k)) l.

(** [sum(l)] on a list of floats. *)
Definition py_sum (l : list R) : R := fold_left Rplus l 0.

End PyNum.

(** * [generate_template] (identical in both scripts) *)

Module Template.
Import PyNum.
Local Open Scope R_scope.

(** [image[:, int(image.shape[1] * (1 - overlap_factor)):]] *)
Definition generate_template {V : Type} (image : Signal.array2 V)
    (overlap_factor : R) : Signal.array2 V :=
  let k := py_int (INR (Signal.ncols V image) * (1 - overlap_factor)) in
  map (fun row => py_slice_from row k) image.

End Template.

(** * One pass of the correction sub-loop of [tiling/main.py] *)

Module TileCorrection.
Local Open Scope R_scope.

Definition BIN_FACTOR : R := 4.
Definition OVERLAP_FACTOR : R := 3 / 10.

(** The comparison [a > b] that [np.argmax] uses on float arrays. *)
Definition Rgtb (a b : R) : bool := if Rlt_dec b a then true else false.

(** Lines 161-170: bin the previous and the current frame (default bin
    factor 4), cut the template from the previous one and correlate. *)
Definition correction_peak (full_template_img current_img : list (list R))
    : exc (Z * Z) :=
  match Binning.bin_image full_template_img 4 with
  | Raise e => Raise e
  | Ok full_template_img =>
      match Binning.bin_image current_img 4 with
      | Raise e => Raise e
      | Ok current_img =>
          let template := Template.generate_template full_template_img OVERLAP_FACTOR in
          Tiling.cross_correlate R 0 Rplus Rmult Rgtb current_img template
      end
  end.

(** The [x] and [y] fields of [StagePosition]; a field left unset in
    [StagePosition(x=...)] is no displacement of a relative move. *)
Record StagePosition := mkStagePosition { sx : R; sy : R }.

(** Lines 186-220: the two relative piezo moves, x then y, commanded for
    [peak_index] (row, column). *)
Definition correction_moves (peak_index : Z * Z) (PIXEL_SIZE : R)
    (current_image_stage_pos desired_abs_stage_pos : StagePosition)
    : list StagePosition :=
  let relative_overshift_x := IZR (snd peak_index) * BIN_FACTOR * PIXEL_SIZE in
  let relative_overshift_y := IZR (fst peak_index) * BIN_FACTOR * PIXEL_SIZE in
  [ if Rlt_dec (sx desired_abs_stage_pos) (sx current_image_stage_pos)
    then mkStagePosition (- relative_overshift_x) 0
    else mkStagePosition relative_overshift_x 0;
    if Rlt_dec (sy desired_abs_stage_pos) (sy current_image_stage_pos)
    then mkStagePosition 0 (- relative_overshift_y)
    else mkStagePosition 0 relative_overshift_y ].

End TileCorrection.

(** * The angle calibration loop of [calibration/beam_shift_main.py] *)

Module CalibrationLoop.
Import Calibration PyNum.
Local Open Scope R_scope.

Definition IMAGE_SIZE : R := 1024.
Definition OVERLAP_FACTOR : R := 3 / 10.
Definition DESIRED_SHIFT_PX : Z := py_int (IMAGE_SIZE * (1 - OVERLAP_FACTOR)).
Definition BIN_FACTOR : R := 4.

(** Lines 392-407: from the translation vector (x, y) returned by
    [compute_translation_vector] to [correction_angle]. *)
Definition correction_angle_of
    (vector_from_desired_im2_center_to_template_match_index : Z * Z) : exc fvalue :=
  let tv := vector_from_desired_im2_center_to_template_match_index in
  let center_im_2_desired_coord :=
    (IMAGE_SIZE / BIN_FACTOR / 2, IMAGE_SIZE / BIN_FACTOR / 2) in
  let center_im_1_starting_coord :=
    (fst center_im_2_desired_coord - IZR DESIRED_SHIFT_PX / BIN_FACTOR,
     snd center_im_2_desired_coord - 0) in
  let template_match_coord :=
    (fst center_im_2_desired_coord + IZR (fst tv),
     snd center_im_2_desired_coord + IZR (snd tv)) in
  let center_im_2_actual_coord :=
    (fst template_match_coord
       + IZR (py_int (IMAGE_SIZE * (1 - OVERLAP_FACTOR))) / BIN_FACTOR / 2,
     snd template_match_coord + 0) in
  let vector_from_center_im1_starting_coord_to_center_im_2_desired_coord :=
    (fst center_im_2_desired_coord - fst center_im_1_starting_coord,
     snd center_im_2_desired_coord - snd center_im_1_starting_coord) in
  let vector_from_center_im1_starting_coord_to_im_2_actual_coord :=
    (fst center_im_2_actual_coord - fst center_im_1_starting_coord,
     snd center_im_2_actual_coord - snd center_im_1_starting_coord) in
  calculate_signed_angle_between_vectors
    vector_from_center_im1_starting_coord_to_center_im_2_desired_coord
    vector_from_center_im1_starting_coord_to_im_2_actual_coord.

(** The loop state: the three variables the [while True:] loop updates. *)
Record cal_state := mkCalState {
  guard_counter : nat;
  image_to_beam_shift_angle : R;
  correction_angle_list : list R }.

Definition initial_state : cal_state :=
  mkCalState 0 (- (447 / 10)) [- (447 / 10)].

Section Loop.
(** [measure n angle] is the [correction_angle] of the iteration in which
    [guard_counter] has just become [n], with the current
    [image_to_beam_shift_angle]; or the exception raised on the way (the
    [except] clause then ends the loop). *)
Variable measure : nat -> R -> exc R.

(** One iteration per unit of [fuel] ([None]: fuel exhausted). The result
    says how the loop was left ([Ok tt] at a [break]) and the final state. *)
Fixpoint calibration_loop (fuel : nat) (s : cal_state)
    : option (exc unit * cal_state) :=
  match fuel with
  | O => None
  | S fuel' =>
      if 5 <=? guard_counter s then Some (Ok tt, s)
      else
        let g := S (guard_counter s) in
        match measure g (image_to_beam_shift_angle s) with
        | Raise e =>
            Some (Raise e,
                  mkCalState g (image_to_beam_shift_angle s) (correction_angle_list s))
        | Ok correction_angle =>
            if Rlt_dec (Rabs correction_angle) (1 / 2) then
              Some (Ok tt,
                    mkCalState g (image_to_beam_shift_angle s) (correction_angle_list s))
            else
              calibration_loop fuel'
                (mkCalState g (image_to_beam_shift_angle s + correction_angle)
                   (correction_angle_list s ++ [correction_angle]))
        end
  end.

End Loop.

End CalibrationLoop.

(** * Proofs: calibration *)

Module CalibrationProofs.
Import Calibration.
Local Open Scope R_scope.

Lemma PI_neq0' : PI <> 0.
Proof. pose proof PI_RGT_0; lra. Qed.

(** C1: [beam_to_image_shift] inverts [image_to_beam_shift] for every
    vector, every positive pixel size and every angle (real arithmetic). *)
Theorem beam_to_image_shift_image_to_beam_shift :
  forall (v : R * R) (s a : R), 0 < s ->
  beam_to_image_shift (image_to_beam_shift v s a) s a = v.
Proof.
  intros [vx vy] s a Hs.
  unfold beam_to_image_shift, image_to_beam_shift, matmul_vec, transpose,
    rotation_matrix; simpl.
  pose proof (sin2_cos2 (radians a)) as Hsc; unfold Rsqr in Hsc.
  set (c := cos (radians a)) in *; set (sn := sin (radians a)) in *.
  f_equal; field_simplify_eq; try lra.
  - transitivity (vx * s * (sn * sn + c * c)); [ring | rewrite Hsc; ring].
  - transitivity (vy * s * (sn * sn + c * c)); [ring | rewrite Hsc; ring].
Qed.

(** C8: at angle 0 the forward transform only scales by the pixel size and
    negates the y-component. *)
Theorem image_to_beam_shift_angle_0 :
  forall (vx vy s : R),
  image_to_beam_shift (vx, vy) s 0 = mkPoint (s * vx) (- (s * vy)).
Proof.
  intros vx vy s.
  unfold image_to_beam_shift, matmul_vec, rotation_matrix; simpl.
  replace (radians 0) with 0 by (unfold radians; ring).
  rewrite cos_0, sin_0.
  f_equal; ring.
Qed.

Lemma norm_nonneg : forall v, 0 <= norm v.
Proof. intros v; unfold norm; apply sqrt_pos. Qed.

Lemma norm_zero : forall v, norm v = 0 -> fst v = 0 /\ snd v = 0.
Proof.
  intros [a b] H; unfold norm in H; simpl in *.
  apply sqrt_eq_0 in H; [|nra].
  split; nra.
Qed.

Lemma norm_1_0 : norm (1, 0) = 1.
Proof.
  unfold norm; simpl.
  replace (1 * 1 + 0 * 0) with 1 by ring.
  apply sqrt_1.
Qed.

Lemma norm_0_1 : norm (0, 1) = 1.
Proof.
  unfold norm; simpl.
  replace (0 * 0 + 1 * 1) with 1 by ring.
  apply sqrt_1.
Qed.

Lemma norm_0_m1 : norm (0, -1) = 1.
Proof.
  unfold norm; simpl.
  replace (0 * 0 + -1 * -1) with 1 by ring.
  apply sqrt_1.
Qed.

Lemma norm_0_0 : norm (0, 0) = 0.
Proof.
  unfold norm; simpl.
  replace (0 * 0 + 0 * 0) with 0 by ring.
  apply sqrt_0.
Qed.

Lemma fdiv_0_0 : fdiv 0 0 = NaN.
Proof.
  unfold fdiv; destruct (Req_EM_T 0 0) as [_|n]; [|congruence].
  destruct (Rlt_dec 0 0); [lra|].
  destruct (Rlt_dec 0 0); [lra|reflexivity].
Qed.

Lemma fdiv_nonzero : forall a b, b <> 0 -> fdiv a b = Fin (a / b).
Proof.
  intros a b Hb; unfold fdiv; destruct (Req_EM_T b 0); [contradiction|reflexivity].
Qed.

(** C6 (counterexample): on a zero vector the function raises nothing; it
    returns NaN. *)
Lemma signed_angle_zero_vector_no_error :
  calculate_signed_angle_between_vectors (0, 0) (1, 0) = Ok NaN /\
  (forall e, calculate_signed_angle_between_vectors (0, 0) (1, 0) <> Raise e).
Proof.
  assert (H : calculate_signed_angle_between_vectors (0, 0) (1, 0) = Ok NaN).
  { unfold calculate_signed_angle_between_vectors.
    rewrite norm_0_0, norm_1_0.
    replace (dot (0, 0) (1, 0)) with 0 by (unfold dot; simpl; ring).
    replace (0 * 1) with 0 by ring.
    rewrite fdiv_0_0; simpl.
    destruct (Rlt_dec _ 0); reflexivity. }
  split; [exact H|].
  intros e; rewrite H; discriminate.
Qed.

(** C6 (amended): when either vector has zero magnitude the function
    raises no error and returns NaN (0/0 propagated through clip and
    arccos). *)
Theorem signed_angle_zero_magnitude_nan :
  forall vec1 vec2, norm vec1 = 0 \/ norm vec2 = 0 ->
  calculate_signed_angle_between_vectors vec1 vec2 = Ok NaN.
Proof.
  intros [a b] [c d] H.
  assert (Hd : dot (a, b) (c, d) = 0).
  { destruct H as [H|H]; apply norm_zero in H; simpl in H; destruct H as [-> ->];
      unfold dot; simpl; ring. }
  assert (Hp : norm (a, b) * norm (c, d) = 0)
    by (destruct H as [H|H]; rewrite H; ring).
  unfold calculate_signed_angle_between_vectors.
  rewrite Hd, Hp, fdiv_0_0; simpl.
  destruct (Rlt_dec _ 0); reflexivity.
Qed.

Lemma signed_angle_zero_magnitude_nan_witness :
  (norm (0, 0) = 0 \/ norm (3, 4) = 0) /\
  calculate_signed_angle_between_vectors (0, 0) (3, 4) = Ok NaN.
Proof.
  assert (H : norm (0, 0) = 0 \/ norm (3, 4) = 0) by (left; apply norm_0_0).
  split; [exact H|].
  apply (signed_angle_zero_magnitude_nan (0, 0) (3, 4)); exact H.
Defined.

Lemma clip_0 : clip (Fin (0 / (1 * 1))) (-1) 1 = Fin 0.
Proof.
  simpl; f_equal.
  replace (0 / (1 * 1)) with 0 by field.
  unfold Rmin, Rmax; repeat destruct Rle_dec; lra.
Qed.

Lemma arccos_0 : arccos (Fin 0) = Fin (PI / 2).
Proof.
  simpl; destruct (Rle_dec (-1) 0); [|lra].
  destruct (Rle_dec 0 1); [|lra].
  rewrite acos_0; reflexivity.
Qed.

(** C7: +90 degrees from (1,0) to (0,1) and -90 degrees from (1,0) to
    (0,-1). *)
Theorem signed_angle_quarter_turns :
  calculate_signed_angle_between_vectors (1, 0) (0, 1) = Ok (Fin 90) /\
  calculate_signed_angle_between_vectors (1, 0) (0, -1) = Ok (Fin (-90)).
Proof.
  pose proof PI_neq0'.
  split; unfold calculate_signed_angle_between_vectors;
    rewrite ?norm_1_0, ?norm_0_1, ?norm_0_m1;
    rewrite fdiv_nonzero by lra;
    [replace (dot (1, 0) (0, 1)) with 0 by (unfold dot; simpl; ring)
    |replace (dot (1, 0) (0, -1)) with 0 by (unfold dot; simpl; ring)];
    rewrite clip_0, arccos_0;
    [replace (cross (1, 0) (0, 1)) with 1 by (unfold cross; simpl; ring)
    |replace (cross (1, 0) (0, -1)) with (-1) by (unfold cross; simpl; ring)];
    destruct (Rlt_dec _ 0); try lra; simpl; unfold degrees; f_equal; f_equal;
    field; exact H.
Qed.

(** C10: for nonzero vectors the result is a finite angle in [-180, 180]. *)
Theorem signed_angle_range :
  forall vec1 vec2, norm vec1 <> 0 -> norm vec2 <> 0 ->
  exists r, calculate_signed_angle_between_vectors vec1 vec2 = Ok (Fin r) /\
            -180 <= r <= 180.
Proof.
  intros vec1 vec2 H1 H2.
  pose proof PI_RGT_0 as Hpi.
  assert (Hp : norm vec1 * norm vec2 <> 0) by (apply Rmult_integral_contrapositive; auto).
  unfold calculate_signed_angle_between_vectors.
  rewrite fdiv_nonzero by exact Hp; simpl.
  set (c := Rmin (Rmax (dot vec1 vec2 / (norm vec1 * norm vec2)) (-1)) 1).
  assert (Hc : -1 <= c <= 1) by (unfold c, Rmin, Rmax; repeat destruct Rle_dec; lra).
  destruct (Rle_dec (-1) c); [|lra].
  destruct (Rle_dec c 1); [|lra].
  pose proof (acos_bound c) as Hb.
  assert (Hd : 0 <= degrees (acos c) <= 180).
  { unfold degrees; split.
    - apply Rmult_le_pos; [lra|]. apply Rlt_le, Rdiv_lt_0_compat; lra.
    - replace 180 with (PI * (180 / PI)) at 2 by (field; lra).
      apply Rmult_le_compat_r; [apply Rlt_le, Rdiv_lt_0_compat; lra | lra]. }
  destruct (Rlt_dec _ 0); simpl.
  - exists (degrees (- acos c)); split; [reflexivity|].
    unfold degrees in *; lra.
  - exists (degrees (acos c)); split; [reflexivity | lra].
Qed.

Lemma signed_angle_range_witness :
  norm (1, 0) <> 0 /\ norm (0, 1) <> 0 /\
  exists r, calculate_signed_angle_between_vectors (1, 0) (0, 1) = Ok (Fin r) /\
            -180 <= r <= 180.
Proof.
  assert (H1 : norm (1, 0) <> 0) by (rewrite norm_1_0; lra).
  assert (H2 : norm (0, 1) <> 0) by (rewrite norm_0_1; lra).
  split; [exact H1|]; split; [exact H2|].
  apply (signed_angle_range (1, 0) (0, 1)); [exact H1 | exact H2].
Defined.

Lemma beam_to_image_shift_image_to_beam_shift_witness :
  0 < 2 /\ beam_to_image_shift (image_to_beam_shift (3, -1) 2 45) 2 45 = (3, -1).
Proof.
  split; [lra|].
  apply (beam_to_image_shift_image_to_beam_shift (3, -1) 2 45); lra.
Defined.

End CalibrationProofs.

(** * Proofs: correlation peak of the tile loop *)

Module SignalProofs.
Import Signal.

Lemma length_concat_const {A : Type} (l : list (list A)) (c : nat) :
  Forall (fun r => length r = c) l -> length (concat l) = length l * c.
Proof.
  induction 1 as [|r l Hr _ IH]; [reflexivity|].
  simpl; rewrite length_app, IH, Hr; lia.
Qed.

Lemma length_grid {A : Type} (f : nat -> nat -> A) (r c : nat) :
  length (concat (map (fun i => map (f i) (seq 0 c)) (seq 0 r))) = r * c.
Proof.
  rewrite (length_concat_const _ c).
  - rewrite length_map, length_seq; reflexivity.
  - apply Forall_forall; intros x Hx.
    apply in_map_iff in Hx as [i [<- _]].
    rewrite length_map, length_seq; reflexivity.
Qed.

Lemma argmax_from_lt {V} (vgtb : V -> V -> bool) :
  forall l i best bv, best < i -> argmax_from V vgtb l i best bv < i + length l.
Proof.
  induction l as [|v l IH]; intros i best bv Hb; simpl; [lia|].
  destruct (vgtb v bv).
  - specialize (IH (S i) i v ltac:(lia)); lia.
  - specialize (IH (S i) best bv ltac:(lia)); lia.
Qed.

Lemma argmax_lt {V} (vgtb : V -> V -> bool) (a : array2 V) :
  concat a <> [] ->
  exists idx, argmax V vgtb a = Ok idx /\ idx < length (concat a).
Proof.
  unfold argmax; destruct (concat a) as [|v l]; [congruence|].
  intros _; eexists; split; [reflexivity|].
  pose proof (argmax_from_lt vgtb l 1 0 v ltac:(lia)); simpl; lia.
Qed.

Lemma unravel_index_ok (idx r c : nat) :
  idx < r * c ->
  unravel_index idx (r, c) = Ok (idx / c, idx mod c) /\
  idx / c < r /\ idx mod c < c.
Proof.
  intros H; unfold unravel_index; simpl.
  assert (Hc : c <> 0) by (intros ->; lia).
  rewrite (proj2 (Nat.ltb_lt _ _) H).
  split; [reflexivity|]; split.
  - apply Nat.Div0.div_lt_upper_bound; lia.
  - apply Nat.mod_upper_bound; exact Hc.
Qed.

Lemma valid_core_shape {V} vzero vadd vmul (in1 in2 : array2 V) :
  nrows V (valid_core V vzero vadd vmul in1 in2) = nrows V in1 - nrows V in2 + 1 /\
  ncols V (valid_core V vzero vadd vmul in1 in2) = ncols V in1 - ncols V in2 + 1 /\
  length (concat (valid_core V vzero vadd vmul in1 in2)) =
    (nrows V in1 - nrows V in2 + 1) * (ncols V in1 - ncols V in2 + 1).
Proof.
  unfold valid_core; cbv zeta.
  set (r := nrows V in1 - nrows V in2 + 1).
  set (c := ncols V in1 - ncols V in2 + 1).
  split; [|split].
  - unfold nrows at 1; rewrite length_map, length_seq; reflexivity.
  - unfold ncols at 1.
    replace r with (S (r - 1)) by (unfold r; lia).
    simpl; rewrite length_map, length_seq; reflexivity.
  - apply length_grid.
Qed.

End SignalProofs.

Module TilingProofs.
Import Signal SignalProofs Tiling.

(** C9: when the image is at least as large as the template, the valid-mode
    peak index lies in [0, H - h] x [0, W - w], so the loop's test on
    [abs(peak_index[k]) <= 5] is the same as [peak_index[k] <= 5]. *)
Theorem cross_correlate_peak_in_valid_window :
  forall (V : Type) (vzero : V) (vadd vmul : V -> V -> V) (vgtb : V -> V -> bool)
         (image template : array2 V),
  nrows V template <= nrows V image ->
  ncols V template <= ncols V image ->
  exists p0 p1,
    cross_correlate V vzero vadd vmul vgtb image template = Ok (p0, p1) /\
    (0 <= p0 <= Z.of_nat (nrows V image - nrows V template))%Z /\
    (0 <= p1 <= Z.of_nat (ncols V image - ncols V template))%Z /\
    within_tolerance (p0, p1) =
      ((p0 <=? SHIFT_TOLERANCE_PIXELS) && (p1 <=? SHIFT_TOLERANCE_PIXELS))%Z.
Proof.
  intros V vzero vadd vmul vgtb image template Hr Hc.
  unfold cross_correlate, correlate2d_valid.
  rewrite (proj2 (Nat.leb_le _ _) Hr), (proj2 (Nat.leb_le _ _) Hc); simpl.
  destruct (valid_core_shape vzero vadd vmul image template) as [Hnr [Hnc Hlen]].
  set (corr := valid_core V vzero vadd vmul image template) in *.
  destruct (argmax_lt vgtb corr) as [idx [Ha Hidx]].
  { intros Hnil; rewrite Hnil in Hlen; simpl in Hlen; nia. }
  rewrite Ha.
  unfold shape; rewrite Hnr, Hnc.
  rewrite Hlen in Hidx.
  destruct (unravel_index_ok idx _ _ Hidx) as [Hu [H0 H1]].
  rewrite Hu.
  exists (Z.of_nat (idx / (ncols V image - ncols V template + 1))),
         (Z.of_nat (idx mod (ncols V image - ncols V template + 1))).
  split; [reflexivity|].
  split; [lia|]; split; [lia|].
  unfold within_tolerance; simpl.
  rewrite !Z.abs_eq by lia; reflexivity.
Qed.

Lemma cross_correlate_peak_in_valid_window_witness :
  nrows Z [[1%Z]] <= nrows Z [[0; 0]; [0; 1]]%Z /\
  ncols Z [[1%Z]] <= ncols Z [[0; 0]; [0; 1]]%Z /\
  exists p0 p1,
    cross_correlate Z 0%Z Z.add Z.mul Z.gtb [[0; 0]; [0; 1]]%Z [[1%Z]] = Ok (p0, p1) /\
    (0 <= p0 <= Z.of_nat (nrows Z [[0; 0]; [0; 1]]%Z - nrows Z [[1%Z]]))%Z /\
    (0 <= p1 <= Z.of_nat (ncols Z [[0; 0]; [0; 1]]%Z - ncols Z [[1%Z]]))%Z /\
    within_tolerance (p0, p1) =
      ((p0 <=? SHIFT_TOLERANCE_PIXELS) && (p1 <=? SHIFT_TOLERANCE_PIXELS))%Z.
Proof.
  split; [vm_compute; lia|]; split; [vm_compute; lia|].
  apply (cross_correlate_peak_in_valid_window Z 0%Z Z.add Z.mul Z.gtb);
    vm_compute; lia.
Defined.

End TilingProofs.

(** * Proofs: binning *)

Module BinningProofs.
Import Binning SignalProofs.
Local Open Scope R_scope.

Lemma vsum_ext (f g : nat -> R) (n : nat) :
  (forall k, (k < n)%nat -> f k = g k) ->
  Signal.vsum R 0 Rplus f n = Signal.vsum R 0 Rplus g n.
Proof.
  induction n as [|n IH]; intros H; simpl; [reflexivity|].
  rewrite IH by (intros; apply H; lia).
  rewrite (H n) by lia; reflexivity.
Qed.

Lemma vsum_const (v : R) (n : nat) :
  Signal.vsum R 0 Rplus (fun _ => v) n = INR n * v.
Proof.
  induction n as [|n IH]; [simpl; ring|].
  change (Signal.vsum R 0 Rplus (fun _ => v) (S n))
    with (Signal.vsum R 0 Rplus (fun _ => v) n + v).
  rewrite IH, S_INR; ring.
Qed.

Lemma nth_concat_rect {A : Type} (image : list (list A)) (N r c : nat) (d : A) :
  Forall (fun row => length row = N) image ->
  (r < length image)%nat -> (c < N)%nat ->
  nth (r * N + c) (concat image) d = nth c (nth r image []) d.
Proof.
  intros HF; revert r; induction HF as [|row rows Hrow _ IH]; intros r Hr Hc;
    simpl in *; [lia|].
  destruct r as [|r].
  - rewrite app_nth1 by lia; reflexivity.
  - rewrite app_nth2 by nia.
    replace (S r * N + c - length row)%nat with (r * N + c)%nat by nia.
    apply IH; lia.
Qed.

Lemma square_eq (N M : nat) : (N * N = M * M)%nat -> N = M.
Proof.
  intros H; destruct (Nat.lt_total N M) as [Hl|[He|Hl]]; [|exact He|].
  - assert (N * N < M * M)%nat by (apply Nat.mul_lt_mono; lia); lia.
  - assert (M * M < N * N)%nat by (apply Nat.mul_lt_mono; lia); lia.
Qed.

Lemma nth_grid {A : Type} (g : nat -> nat -> A) (n m a b : nat) (d : A) :
  (a < n)%nat -> (b < m)%nat ->
  nth b (nth a (map (fun a => map (g a) (seq 0 m)) (seq 0 n)) []) d = g a b.
Proof.
  intros Ha Hb.
  rewrite nth_error_nth with (x := map (g a) (seq 0 m)).
  - apply nth_error_nth.
    rewrite nth_error_map, nth_error_seq.
    rewrite (proj2 (Nat.ltb_lt _ _) Hb); reflexivity.
  - rewrite nth_error_map, nth_error_seq.
    rewrite (proj2 (Nat.ltb_lt _ _) Ha); reflexivity.
Qed.

(** C3 (counterexample): an 8 x 8 frame with bin factor 2 (2 divides 8)
    is refused: the reshape to (256, 2, 256, 2) raises [ValueError]. *)
Lemma bin_image_8x8_by_2_raises :
  bin_image (repeat (repeat 0 8) 8) 2 = Raise ValueError.
Proof.
  unfold bin_image; cbv zeta.
  assert (Hl : length (concat (repeat (repeat 0 8) 8)) = 64%nat) by reflexivity.
  rewrite Hl.
  destruct (Nat.eqb_spec 64 (256 * 2 * 256 * 2)); [lia | reflexivity].
Qed.

(** C3 (amended): for a square frame of side [N] and a bin factor [f >= 1],
    [bin_image] raises [ValueError] unless [N = 256 * f]; when [N = 256 * f]
    it returns a 256 x 256 frame (side [N / f]) whose sample [(a, b)] is
    the mean of the [f x f] block at [(a * f, b * f)], and a uniform frame
    of value [v] bins to a uniform frame of value [v]. *)
Theorem bin_image_square_frame :
  forall (image : list (list R)) (N f : nat),
  (1 <= f)%nat -> length image = N -> Forall (fun row => length row = N) image ->
  (N <> (256 * f)%nat -> bin_image image f = Raise ValueError) /\
  (N = (256 * f)%nat ->
   exists out, bin_image image f = Ok out /\
     length out = 256%nat /\ Forall (fun row => length row = 256%nat) out /\
     (forall a b, (a < 256)%nat -> (b < 256)%nat ->
        nth b (nth a out []) 0 = block_mean image f a b) /\
     (forall v, Forall (Forall (fun e => e = v)) image ->
        forall a b, (a < 256)%nat -> (b < 256)%nat -> nth b (nth a out []) 0 = v)).
Proof.
  intros image N f Hf Hlen HF.
  assert (Hflat : length (concat image) = (N * N)%nat)
    by (rewrite (length_concat_const image N HF), Hlen; reflexivity).
  unfold bin_image; cbv zeta; rewrite Hflat.
  split.
  - intros HN.
    destruct (Nat.eqb_spec (N * N) (256 * f * 256 * f)) as [E|E]; [|reflexivity].
    exfalso; apply HN, square_eq; lia.
  - intros HN.
    destruct (Nat.eqb_spec (N * N) (256 * f * 256 * f)) as [E|E]; [|subst; lia].
    eexists; split; [reflexivity|].
    assert (Hentry : forall a b, (a < 256)%nat -> (b < 256)%nat ->
      nth b (nth a (map (fun a => map (fun b =>
          Signal.vsum R 0 Rplus (fun p => Signal.vsum R 0 Rplus (fun q =>
            nth (((a * f + p) * 256 + b) * f + q) (concat image) 0) f) f
          / INR (f * f)) (seq 0 256)) (seq 0 256)) []) 0 = block_mean image f a b).
    { intros a b Ha Hb.
      rewrite (nth_grid (fun a b => _)) by assumption.
      unfold block_mean; f_equal.
      apply vsum_ext; intros p Hp; apply vsum_ext; intros q Hq.
      replace (((a * f + p) * 256 + b) * f + q)%nat
        with ((a * f + p) * N + (b * f + q))%nat by (rewrite HN; nia).
      apply nth_concat_rect; [exact HF | nia | nia]. }
    split; [rewrite length_map, length_seq; reflexivity|].
    split.
    { apply Forall_forall; intros row Hrow.
      apply in_map_iff in Hrow as [a [<- _]].
      rewrite length_map, length_seq; reflexivity. }
    split; [exact Hentry|].
    intros v Hv a b Ha Hb.
    rewrite Hentry by assumption.
    unfold block_mean.
    rewrite (vsum_ext _ (fun _ => INR f * v)).
    + rewrite vsum_const, mult_INR.
      assert (0 < INR f) by (apply lt_0_INR; lia).
      field; lra.
    + intros p Hp.
      rewrite (vsum_ext _ (fun _ => v)); [apply vsum_const|].
      intros q Hq.
      assert (Hrow : In (nth (a * f + p) image []) image)
        by (apply nth_In; nia).
      rewrite Forall_forall in Hv; specialize (Hv _ Hrow).
      rewrite Forall_forall in Hv; apply Hv.
      apply nth_In.
      rewrite Forall_forall in HF; rewrite (HF _ Hrow); nia.
Qed.

Lemma bin_image_square_frame_witness :
  (1 <= 1)%nat /\ length (repeat (repeat 1 256) 256) = 256%nat /\
  Forall (fun row => length row = 256%nat) (repeat (repeat 1 256) 256) /\
  (((256 <> 256 * 1)%nat -> bin_image (repeat (repeat 1 256) 256) 1 = Raise ValueError) /\
   ((256 = 256 * 1)%nat ->
    exists out, bin_image (repeat (repeat 1 256) 256) 1 = Ok out /\
      length out = 256%nat /\ Forall (fun row => length row = 256%nat) out /\
      (forall a b, (a < 256)%nat -> (b < 256)%nat ->
         nth b (nth a out []) 0 = block_mean (repeat (repeat 1 256) 256) 1 a b) /\
      (forall v, Forall (Forall (fun e => e = v)) (repeat (repeat 1 256) 256) ->
         forall a b, (a < 256)%nat -> (b < 256)%nat -> nth b (nth a out []) 0 = v))).
Proof.
  assert (H1 : length (repeat (repeat 1 256) 256) = 256%nat) by apply repeat_length.
  assert (H2 : Forall (fun row => length row = 256%nat) (repeat (repeat 1 256) 256)).
  { apply Forall_forall; intros row Hrow.
    apply repeat_spec in Hrow; subst; apply repeat_length. }
  split; [lia|]; split; [exact H1|]; split; [exact H2|].
  apply (bin_image_square_frame (repeat (repeat 1 256) 256) 256 1); [lia | exact H1 | exact H2].
Defined.

End BinningProofs.

(** * Proofs: the tile loop *)

Module TilingLoopProofs.
Import Tiling.

(** C4 (code bug): with three columns, the correction sub-loop runs once,
    after the whole row, for tile (0, 2) only; tile (0, 1) is never
    corrected, because [if j > 0:] sits after the [for j] loop. *)
Theorem tiling_events_three_columns :
  tiling_events 1 3 =
    Ok [StageMove 0 0; AcquireTile 0 0; StageMove 0 1; AcquireTile 0 1;
        StageMove 0 2; AcquireTile 0 2; CorrectionLoop 0 2] /\
  exists ev, tiling_events 1 3 = Ok ev /\ ~ In (CorrectionLoop 0 1) ev.
Proof.
  split; [reflexivity|].
  eexists; split; [reflexivity|].
  simpl; intuition discriminate.
Qed.

Lemma correction_loop_exhausts {A : Type} (peak_of : A -> Z * Z) (acquire : nat -> A) :
  (forall n, within_tolerance (peak_of (acquire n)) = false) ->
  forall fuel n current,
  n <= 9 -> 10 - n <= fuel ->
  within_tolerance (peak_of current) = false ->
  correction_loop A peak_of acquire fuel n current = Some (10, acquire 9).
Proof.
  intros Hacq fuel; induction fuel as [|fuel IH]; intros n current Hn Hfuel Hcur;
    [lia|].
  simpl; rewrite Hcur.
  destruct (Nat.eqb_spec n 9) as [E|E].
  - replace n with 9 by lia; reflexivity.
  - apply IH; [lia | lia | apply Hacq].
Qed.

(** C5: when no acquisition ever brings the peak within tolerance, the
    sub-loop stops after exactly 10 correction attempts, keeping the 10th
    re-acquired frame; 10 iterations suffice, so any larger bound gives the
    same result. *)
Theorem correction_loop_retry_budget :
  forall (A : Type) (peak_of : A -> Z * Z) (acquire : nat -> A) (first : A) (fuel : nat),
  10 <= fuel ->
  within_tolerance (peak_of first) = false ->
  (forall n, within_tolerance (peak_of (acquire n)) = false) ->
  correction_loop A peak_of acquire fuel 0 first = Some (10, acquire 9).
Proof.
  intros A peak_of acquire first fuel Hfuel Hfirst Hacq.
  apply correction_loop_exhausts; [exact Hacq | lia | lia | exact Hfirst].
Qed.

Lemma correction_loop_retry_budget_witness :
  10 <= 10 /\
  within_tolerance ((fun _ : nat => (6, -7)%Z) 100) = false /\
  (forall n, within_tolerance ((fun _ : nat => (6, -7)%Z) (n + 1)) = false) /\
  correction_loop nat (fun _ => (6, -7)%Z) (fun n => n + 1) 10 0 100 = Some (10, 9 + 1).
Proof.
  assert (H1 : within_tolerance ((fun _ : nat => (6, -7)%Z) 100) = false) by reflexivity.
  assert (H2 : forall n, within_tolerance ((fun _ : nat => (6, -7)%Z) (n + 1)) = false)
    by reflexivity.
  split; [lia|]; split; [exact H1|]; split; [exact H2|].
  apply (correction_loop_retry_budget nat (fun _ => (6, -7)%Z) (fun n => n + 1) 100 10);
    [lia | exact H1 | exact H2].
Defined.

End TilingLoopProofs.

(** * Proofs: finite sums and the strict maximum of an autocorrelation *)

Module ZSumProofs.
Import ZSum.
Local Open Scope Z_scope.

Lemma zsum_S lo n f : zsum lo (S n) f = zsum lo n f + f (lo + Z.of_nat n).
Proof. reflexivity. Qed.

Lemma zsum_ext lo n f g :
  (forall x, lo <= x < lo + Z.of_nat n -> f x = g x) -> zsum lo n f = zsum lo n g.
Proof.
  induction n as [|n IH]; intros H; [reflexivity|].
  rewrite !zsum_S, IH by (intros; apply H; lia).
  rewrite (H (lo + Z.of_nat n)) by lia; reflexivity.
Qed.

Lemma zsum_zero lo n f :
  (forall x, lo <= x < lo + Z.of_nat n -> f x = 0) -> zsum lo n f = 0.
Proof.
  induction n as [|n IH]; intros H; [reflexivity|].
  rewrite zsum_S, IH by (intros; apply H; lia).
  rewrite H by lia; reflexivity.
Qed.

Lemma zsum_split lo k m f :
  zsum lo (k + m) f = zsum lo k f + zsum (lo + Z.of_nat k) m f.
Proof.
  induction m as [|m IH]; [simpl; rewrite Nat.add_0_r; unfold zsum; simpl; lia|].
  rewrite Nat.add_succ_r, !zsum_S, IH.
  replace (lo + Z.of_nat (k + m)) with (lo + Z.of_nat k + Z.of_nat m) by lia.
  ring.
Qed.

Lemma zsum_extend f lo n a m :
  (forall x, ~ (a <= x < a + Z.of_nat m) -> f x = 0) ->
  lo <= a -> a + Z.of_nat m <= lo + Z.of_nat n ->
  zsum lo n f = zsum a m f.
Proof.
  intros Hf Hlo Hhi.
  set (k := Z.to_nat (a - lo)).
  set (rest := (n - k - m)%nat).
  replace n with (k + (m + rest))%nat by (unfold rest, k; lia).
  rewrite zsum_split, zsum_split.
  replace (lo + Z.of_nat k) with a by (unfold k; lia).
  rewrite (zsum_zero lo k) by (intros x Hx; apply Hf; unfold k in Hx; lia).
  rewrite (zsum_zero (a + Z.of_nat m) rest) by (intros x Hx; apply Hf; lia).
  ring.
Qed.

Lemma zsum_shift lo n f d :
  zsum lo n (fun x => f (x + d)) = zsum (lo + d) n f.
Proof.
  induction n as [|n IH]; [reflexivity|].
  rewrite !zsum_S, IH; f_equal; f_equal; ring.
Qed.

Lemma zsum_lin lo n f g k :
  zsum lo n (fun x => f x + g x - 2 * k x) = zsum lo n f + zsum lo n g - 2 * zsum lo n k.
Proof.
  induction n as [|n IH]; [reflexivity|].
  rewrite !zsum_S, IH; ring.
Qed.

Lemma zsum_nonneg lo n f :
  (forall x, lo <= x < lo + Z.of_nat n -> 0 <= f x) -> 0 <= zsum lo n f.
Proof.
  induction n as [|n IH]; intros H; [reflexivity|].
  rewrite zsum_S.
  pose proof (IH ltac:(intros; apply H; lia)).
  pose proof (H (lo + Z.of_nat n) ltac:(lia)); lia.
Qed.

Lemma zsum_zero_inv lo n f :
  (forall x, lo <= x < lo + Z.of_nat n -> 0 <= f x) -> zsum lo n f = 0 ->
  forall x, lo <= x < lo + Z.of_nat n -> f x = 0.
Proof.
  induction n as [|n IH]; intros H Hz x Hx; [lia|].
  rewrite zsum_S in Hz.
  pose proof (zsum_nonneg lo n f ltac:(intros; apply H; lia)).
  pose proof (H (lo + Z.of_nat n) ltac:(lia)).
  destruct (Z.eq_dec x (lo + Z.of_nat n)) as [->|Hne]; [lia|].
  apply (IH ltac:(intros; apply H; lia)); lia.
Qed.

Lemma zsum2_extend (F : Z -> Z -> Z) lo1 n1 lo2 n2 a0 m1 b0 m2 :
  (forall a b, ~ (a0 <= a < a0 + Z.of_nat m1 /\ b0 <= b < b0 + Z.of_nat m2) -> F a b = 0) ->
  lo1 <= a0 -> a0 + Z.of_nat m1 <= lo1 + Z.of_nat n1 ->
  lo2 <= b0 -> b0 + Z.of_nat m2 <= lo2 + Z.of_nat n2 ->
  zsum lo1 n1 (fun a => zsum lo2 n2 (F a)) = zsum a0 m1 (fun a => zsum b0 m2 (F a)).
Proof.
  intros HF H1 H2 H3 H4.
  rewrite (zsum_extend _ lo1 n1 a0 m1).
  - apply zsum_ext; intros a Ha.
    apply zsum_extend; [|lia|lia].
    intros b Hb; apply HF; lia.
  - intros a Ha; apply zsum_zero; intros b _; apply HF; lia.
  - exact H1.
  - exact H2.
Qed.

Lemma zsum2_shift (F : Z -> Z -> Z) lo1 n1 lo2 n2 d1 d2 :
  zsum lo1 n1 (fun a => zsum lo2 n2 (fun b => F (a + d1) (b + d2))) =
  zsum (lo1 + d1) n1 (fun a => zsum (lo2 + d2) n2 (F a)).
Proof.
  rewrite <- (zsum_shift lo1 n1 (fun a => zsum (lo2 + d2) n2 (F a)) d1).
  apply zsum_ext; intros a _.
  apply (zsum_shift lo2 n2 (F (a + d1)) d2).
Qed.

(** A template with a nonzero sample correlates strictly better with
    itself undisplaced than displaced: [2 C(0) - 2 C(d)] is the sum of
    [(T x - T (x + d))^2] over a box holding both supports, and that sum
    vanishes only if [T] is invariant under [d], hence zero. *)
Lemma autocorr_strict (T : Z -> Z -> Z) (h w : nat) (a0 b0 d1 d2 : Z) :
  (forall a b, ~ (0 <= a < Z.of_nat h /\ 0 <= b < Z.of_nat w) -> T a b = 0) ->
  T a0 b0 <> 0 -> (d1 <> 0 \/ d2 <> 0) ->
  autocorr T h w d1 d2 < autocorr T h w 0 0.
Proof.
  intros Hsupp HT0 Hd.
  set (K := Z.of_nat h + Z.of_nat w + Z.abs d1 + Z.abs d2 + 1).
  set (n := Z.to_nat (2 * K)).
  assert (Hn : Z.of_nat n = 2 * K) by (unfold n, K; lia).
  assert (E1 : zsum (- K) n (fun a => zsum (- K) n (fun b => T a b * T a b)) =
               autocorr T h w 0 0).
  { unfold autocorr.
    rewrite (zsum2_extend (fun a b => T a b * T a b) _ _ _ _ 0 h 0 w);
      [| intros a b Hab; rewrite Hsupp by exact Hab; ring | lia..].
    apply zsum_ext; intros a _; apply zsum_ext; intros b _.
    rewrite !Z.add_0_r; reflexivity. }
  assert (E2 : zsum (- K) n (fun a => zsum (- K) n (fun b =>
                 T (a + d1) (b + d2) * T (a + d1) (b + d2))) =
               autocorr T h w 0 0).
  { rewrite <- E1.
    rewrite (zsum2_shift (fun a b => T a b * T a b)).
    rewrite (zsum2_extend (fun a b => T a b * T a b) _ _ _ _ 0 h 0 w);
      [| intros a b Hab; rewrite Hsupp by exact Hab; ring | lia..].
    symmetry.
    apply (zsum2_extend (fun a b => T a b * T a b));
      [intros a b Hab; rewrite Hsupp by exact Hab; ring | lia..]. }
  assert (E3 : zsum (- K) n (fun a => zsum (- K) n (fun b => T (a + d1) (b + d2) * T a b)) =
               autocorr T h w d1 d2).
  { unfold autocorr.
    apply (zsum2_extend (fun a b => T (a + d1) (b + d2) * T a b));
      [intros a b Hab; rewrite (Hsupp a b) by exact Hab; ring | lia..]. }
  set (Q := fun a b => (T a b - T (a + d1) (b + d2)) * (T a b - T (a + d1) (b + d2))).
  assert (E4 : zsum (- K) n (fun a => zsum (- K) n (Q a)) =
               2 * autocorr T h w 0 0 - 2 * autocorr T h w d1 d2).
  { set (G1 := fun a => zsum (- K) n (fun b => T a b * T a b)).
    set (G2 := fun a => zsum (- K) n (fun b => T (a + d1) (b + d2) * T (a + d1) (b + d2))).
    set (G3 := fun a => zsum (- K) n (fun b => T (a + d1) (b + d2) * T a b)).
    transitivity (zsum (- K) n (fun a => G1 a + G2 a - 2 * G3 a)).
    { apply zsum_ext; intros a _.
      unfold G1, G2, G3.
      rewrite <- (zsum_lin (- K) n (fun b => T a b * T a b)
                   (fun b => T (a + d1) (b + d2) * T (a + d1) (b + d2))
                   (fun b => T (a + d1) (b + d2) * T a b)).
      apply zsum_ext; intros b _; unfold Q; ring. }
    rewrite (zsum_lin (- K) n G1 G2 G3).
    unfold G1, G2, G3; rewrite E1, E2, E3; ring. }
  assert (Hpos : forall a, 0 <= zsum (- K) n (Q a)).
  { intros a; apply zsum_nonneg; intros b _; unfold Q; apply Z.square_nonneg. }
  assert (Hne : zsum (- K) n (fun a => zsum (- K) n (Q a)) <> 0).
  { intros Hz.
    assert (Hin : forall a b, - K <= a < - K + Z.of_nat n -> - K <= b < - K + Z.of_nat n ->
                  T a b = T (a + d1) (b + d2)).
    { intros a b Ha Hb.
      pose proof (zsum_zero_inv _ _ _ (fun a _ => Hpos a) Hz a Ha) as Hrow.
      pose proof (zsum_zero_inv _ _ _ (fun b _ => ltac:(unfold Q; apply Z.square_nonneg)) Hrow b Hb) as Hq.
      unfold Q in Hq; nia. }
    assert (Hall : forall a b, T a b = T (a + d1) (b + d2)).
    { intros a b.
      destruct (Z.le_gt_cases (- K) a); destruct (Z.lt_ge_cases a K);
      destruct (Z.le_gt_cases (- K) b); destruct (Z.lt_ge_cases b K);
        try (apply Hin; lia);
        (rewrite (Hsupp a b) by lia; rewrite (Hsupp (a + d1) (b + d2)) by lia;
         reflexivity). }
    assert (Hiter : forall m : nat,
               T a0 b0 = T (a0 + Z.of_nat m * d1) (b0 + Z.of_nat m * d2)).
    { induction m as [|m IH]; [rewrite !Z.mul_0_l, !Z.add_0_r; reflexivity|].
      rewrite IH, Hall.
      f_equal; lia. }
    assert (Hab : 0 <= a0 < Z.of_nat h /\ 0 <= b0 < Z.of_nat w).
    { destruct (Z.le_gt_cases 0 a0); destruct (Z.lt_ge_cases a0 (Z.of_nat h));
      destruct (Z.le_gt_cases 0 b0); destruct (Z.lt_ge_cases b0 (Z.of_nat w));
        try (split; split; assumption);
        exfalso; apply HT0, Hsupp; lia. }
    apply HT0.
    rewrite (Hiter (h + w)%nat).
    apply Hsupp.
    rewrite Nat2Z.inj_add.
    destruct Hd as [Hd|Hd];
      [destruct (Z.lt_trichotomy d1 0) as [Hs|[Hs|Hs]]
      |destruct (Z.lt_trichotomy d2 0) as [Hs|[Hs|Hs]]]; try lia; nia. }
  rewrite E4 in Hne.
  assert (0 <= zsum (- K) n (fun a => zsum (- K) n (Q a)))
    by (apply zsum_nonneg; intros a _; apply Hpos).
  rewrite E4 in H; lia.
Qed.

End ZSumProofs.

(** * Proofs: translation estimator on a synthetic canvas *)

Module TranslationProofs.
Import Signal SignalProofs BinningProofs ZSum ZSumProofs TranslationVector.

Ltac bool_cases :=
  repeat match goal with
  | |- context [Z.leb ?x ?y] => destruct (Z.leb_spec x y)
  | |- context [Z.ltb ?x ?y] => destruct (Z.ltb_spec x y)
  | |- context [Nat.leb ?x ?y] => destruct (Nat.leb_spec x y)
  | |- context [Nat.ltb ?x ?y] => destruct (Nat.ltb_spec x y)
  end; simpl.

(** Discharge the non-dependent premises of [H] from the context. *)
Ltac inst_props H :=
  repeat match type of H with
  | ?A -> _ => let a := fresh in assert (a : A) by assumption; specialize (H a); clear a
  end.

Lemma nth_error_grid {A : Type} (g : nat -> nat -> A) (R C k : nat) :
  k < R * C ->
  nth_error (concat (map (fun i => map (g i) (seq 0 C)) (seq 0 R))) k =
  Some (g (k / C) (k mod C)).
Proof.
  revert k; induction R as [|R IH]; intros k Hk; [lia|].
  assert (HC : C <> 0) by (intros ->; lia).
  rewrite seq_S, map_app, concat_app.
  destruct (Nat.lt_ge_cases k (R * C)) as [Hlt|Hge].
  - rewrite nth_error_app1 by (rewrite length_grid; exact Hlt).
    apply IH; exact Hlt.
  - rewrite nth_error_app2 by (rewrite length_grid; exact Hge).
    rewrite length_grid; simpl; rewrite app_nil_r.
    rewrite nth_error_map, nth_error_seq.
    rewrite (proj2 (Nat.ltb_lt (k - R * C) C) ltac:(nia)); simpl.
    rewrite <- (Nat.div_unique k C R (k - R * C)) by nia.
    rewrite <- (Nat.mod_unique k C R (k - R * C)) by nia.
    reflexivity.
Qed.

Lemma vsum_Z_zsum (f : nat -> Z) (n : nat) :
  vsum Z 0%Z Z.add f n = zsum 0 n (fun a => f (Z.to_nat a)).
Proof.
  induction n as [|n IH]; [reflexivity|].
  rewrite zsum_S, <- IH; simpl.
  rewrite Nat2Z.id; reflexivity.
Qed.

Lemma getZ_outside (t : array2 Z) (a b : Z) :
  ~ (0 <= a < Z.of_nat (nrows Z t) /\ 0 <= b < Z.of_nat (ncols Z t))%Z ->
  getZ Z 0%Z t a b = 0%Z.
Proof. intros H; unfold getZ; bool_cases; try reflexivity; lia. Qed.

Lemma getZ_inside (t : array2 Z) (k l : nat) :
  k < nrows Z t -> l < ncols Z t ->
  getZ Z 0%Z t (Z.of_nat k) (Z.of_nat l) = get Z 0%Z t k l.
Proof. intros Hk Hl; unfold getZ; bool_cases; rewrite ?Nat2Z.id; lia || reflexivity. Qed.

Section Canvas.
Variables (t : array2 Z) (H W r c : nat).
Hypothesis Hh : 1 <= nrows Z t.
Hypothesis Hw : 1 <= ncols Z t.
Hypothesis Hr : r + nrows Z t <= H.
Hypothesis Hc : c + ncols Z t <= W.

Lemma embed_shape :
  nrows Z (embed_template H W r c t) = H /\ ncols Z (embed_template H W r c t) = W.
Proof.
  split.
  - unfold embed_template, nrows at 1; rewrite length_map, length_seq; reflexivity.
  - unfold embed_template, ncols at 1.
    replace H with (S (H - 1)) by lia.
    simpl; rewrite length_map, length_seq; reflexivity.
Qed.

Lemma embed_getZ (a b : Z) :
  getZ Z 0%Z (embed_template H W r c t) a b =
  getZ Z 0%Z t (a - Z.of_nat r) (b - Z.of_nat c).
Proof.
  destruct embed_shape as [En Ec].
  unfold getZ at 1; rewrite En, Ec.
  destruct ((0 <=? a) && (a <? Z.of_nat H) && (0 <=? b) && (b <? Z.of_nat W))%Z eqn:E.
  - repeat rewrite andb_true_iff in E; rewrite Z.leb_le, !Z.ltb_lt, Z.leb_le in E.
    unfold embed_template, get at 1.
    rewrite (nth_grid (fun a b => if (r <=? a) && (a <? r + nrows Z t) &&
                                     (c <=? b) && (b <? c + ncols Z t)
                                  then get Z 0%Z t (a - r) (b - c) else 0%Z)) by lia.
    unfold getZ; bool_cases; try lia; try reflexivity.
    f_equal; lia.
  - symmetry; apply getZ_outside.
    repeat rewrite andb_false_iff in E; rewrite Z.leb_gt, !Z.ltb_ge, Z.leb_gt in E.
    lia.
Qed.

Lemma full_shape :
  nrows Z (correlate2d_full Z 0%Z Z.add Z.mul (embed_template H W r c t) t) =
    H + nrows Z t - 1 /\
  ncols Z (correlate2d_full Z 0%Z Z.add Z.mul (embed_template H W r c t) t) =
    W + ncols Z t - 1.
Proof.
  destruct embed_shape as [En Ec].
  unfold correlate2d_full; cbv zeta; rewrite En, Ec.
  split.
  - unfold nrows at 1; rewrite length_map, length_seq; reflexivity.
  - unfold ncols at 1.
    replace (H + nrows Z t - 1) with (S (H + nrows Z t - 2)) by lia.
    simpl; rewrite length_map, length_seq; reflexivity.
Qed.

Lemma full_entry (k : nat) :
  k < (H + nrows Z t - 1) * (W + ncols Z t - 1) ->
  nth_error (concat (correlate2d_full Z 0%Z Z.add Z.mul (embed_template H W r c t) t)) k =
  Some (autocorr (getZ Z 0%Z t) (nrows Z t) (ncols Z t)
          (Z.of_nat (k / (W + ncols Z t - 1)) - Z.of_nat (nrows Z t - 1) - Z.of_nat r)
          (Z.of_nat (k mod (W + ncols Z t - 1)) - Z.of_nat (ncols Z t - 1) - Z.of_nat c))%Z.
Proof.
  intros Hk.
  destruct embed_shape as [En Ec].
  unfold correlate2d_full; cbv zeta; rewrite En, Ec.
  rewrite nth_error_grid by exact Hk.
  f_equal.
  rewrite vsum_Z_zsum; unfold autocorr.
  apply zsum_ext; intros a Ha.
  rewrite vsum_Z_zsum.
  apply zsum_ext; intros b Hb.
  rewrite embed_getZ.
  rewrite <- getZ_inside by lia.
  rewrite !Z2Nat.id by lia.
  f_equal; f_equal; lia.
Qed.

End Canvas.

Lemma argmax_from_unique (l : list Z) :
  forall i best bv p vp,
  (forall k v, nth_error l k = Some v -> i + k <> p -> (v < vp)%Z) ->
  ((p < i /\ best = p /\ bv = vp) \/
   (i <= p /\ nth_error l (p - i) = Some vp /\ (bv < vp)%Z)) ->
  argmax_from Z Z.gtb l i best bv = p.
Proof.
  induction l as [|v l IH]; intros i best bv p vp Hothers Hstate; simpl.
  - destruct Hstate as [[_ [-> _]]|[_ [Hn _]]]; [reflexivity|].
    destruct (p - i); discriminate.
  - assert (Hrest : forall k v', nth_error l k = Some v' -> S i + k <> p -> (v' < vp)%Z)
      by (intros k v' Hk Hne; apply (Hothers (S k) v'); [exact Hk | lia]).
    destruct Hstate as [[Hlt [-> ->]]|[Hle [Hn Hbv]]].
    + assert (Hv : (v < vp)%Z) by (apply (Hothers 0 v); [reflexivity | lia]).
      destruct (Z.gtb_spec v vp) as [Hg|Hg]; [lia|].
      apply IH with vp; [exact Hrest | left; repeat split; lia].
    + destruct (Nat.eq_dec p i) as [->|Hne].
      * rewrite Nat.sub_diag in Hn; simpl in Hn; injection Hn as ->.
        destruct (Z.gtb_spec vp bv) as [Hg|Hg]; [|lia].
        apply IH with vp; [exact Hrest | left; repeat split; lia].
      * assert (Hv : (v < vp)%Z) by (apply (Hothers 0 v); [reflexivity | lia]).
        replace (p - i) with (S (p - S i)) in Hn by lia; simpl in Hn.
        destruct (Z.gtb_spec v bv);
          (apply IH with vp; [exact Hrest | right; repeat split; lia || assumption]).
Qed.

Lemma argmax_unique (a : array2 Z) (p : nat) (vp : Z) :
  nth_error (concat a) p = Some vp ->
  (forall k v, nth_error (concat a) k = Some v -> k <> p -> (v < vp)%Z) ->
  argmax Z Z.gtb a = Ok p.
Proof.
  unfold argmax; destruct (concat a) as [|v0 l]; intros Hp Hothers;
    [destruct p; discriminate|].
  f_equal.
  apply argmax_from_unique with vp.
  - intros k v Hk Hne; apply (Hothers (S k) v); [exact Hk | lia].
  - destruct p as [|p].
    + simpl in Hp; injection Hp as ->; left; repeat split; lia.
    + right; simpl in Hp; repeat split; [lia | | ].
      * rewrite Nat.sub_1_r; exact Hp.
      * apply (Hothers 0 v0); [reflexivity | lia].
Qed.

(** C2 (counterexample): two noise-free canvases on which the estimator
    misses the embedded offset. (i) An all-zero 1 x 1 template placed one
    column right of the centre of a 1 x 3 canvas (offset x = +1): the
    correlation is flat, [argmax] returns index 0 and the result is
    (x, y) = (-1, 0). (ii) The template [[1]] placed at the centre
    [(W - w) // 2 = 0] of a 1 x 2 canvas (offset 0): the result is
    (-1, 0), since the centre of the correlation is [shape // 2]. *)
Lemma compute_translation_vector_misses_offset :
  compute_translation_vector_Z (embed_template 1 3 0 2 [[0]]%Z) [[0]]%Z = Ok (-1, 0)%Z /\
  compute_translation_vector_Z (embed_template 1 3 0 2 [[0]]%Z) [[0]]%Z <> Ok (1, 0)%Z /\
  compute_translation_vector_Z (embed_template 1 2 0 0 [[1]]%Z) [[1]]%Z = Ok (-1, 0)%Z /\
  compute_translation_vector_Z (embed_template 1 2 0 0 [[1]]%Z) [[1]]%Z <> Ok (0, 0)%Z.
Proof. vm_compute; repeat split; discriminate. Qed.

(** C2 (amended): for a template with at least one nonzero sample, written
    into an otherwise zero [H x W] canvas at top-left corner [(r, c)] with
    the template fully inside, the full-correlation estimator returns
    [(c - (W - w + 1) // 2, r - (H - h + 1) // 2)] as (x, y): the
    displacement from the placement [((H - h + 1) // 2, (W - w + 1) // 2)]
    whose correlation peak falls on [correlation.shape // 2]. *)
Theorem compute_translation_vector_embedded_template :
  forall (t : array2 Z) (H W r c : nat),
  1 <= nrows Z t -> 1 <= ncols Z t ->
  r + nrows Z t <= H -> c + ncols Z t <= W ->
  (exists a0 b0, a0 < nrows Z t /\ b0 < ncols Z t /\ get Z 0%Z t a0 b0 <> 0%Z) ->
  compute_translation_vector_Z (embed_template H W r c t) t =
    Ok (Z.of_nat c - Z.of_nat ((W - ncols Z t + 1) / 2),
        Z.of_nat r - Z.of_nat ((H - nrows Z t + 1) / 2))%Z.
Proof.
  intros t H W r c Hh Hw Hr Hc [a0 [b0 [Ha0 [Hb0 Hnz]]]].
  set (h := nrows Z t) in *.
  set (w := ncols Z t) in *.
  set (CW := W + w - 1).
  set (RH := H + h - 1).
  set (p := (r + h - 1) * CW + (c + w - 1)).
  assert (HCW : c + w - 1 < CW) by (unfold CW; lia).
  assert (Hp : p < RH * CW) by (unfold p, RH, CW in *; nia).
  assert (Hpdiv : p / CW = r + h - 1)
    by (symmetry; apply (Nat.div_unique p CW (r + h - 1) (c + w - 1)); [exact HCW | unfold p; ring]).
  assert (Hpmod : p mod CW = c + w - 1)
    by (symmetry; apply (Nat.mod_unique p CW (r + h - 1) (c + w - 1)); [exact HCW | unfold p; ring]).
  pose proof (full_shape t H W r c) as FS; inst_props FS.
  destruct FS as [Rs Cs].
  pose proof (embed_shape t H W r c) as ES; inst_props ES.
  pose proof (full_entry t H W r c) as FE; inst_props FE.
  assert (Hmax : argmax Z Z.gtb
                   (correlate2d_full Z 0%Z Z.add Z.mul (embed_template H W r c t) t) = Ok p).
  { apply argmax_unique with (vp := autocorr (getZ Z 0%Z t) h w 0 0).
    - rewrite (FE p Hp).
      change (W + ncols Z t - 1) with CW; change (nrows Z t) with h; change (ncols Z t) with w.
      rewrite Hpdiv, Hpmod.
      f_equal; f_equal; lia.
    - intros k v Hk Hne.
      assert (Hklt : k < RH * CW).
      { assert (Hsome : nth_error (concat (correlate2d_full Z 0%Z Z.add Z.mul
                          (embed_template H W r c t) t)) k <> None) by congruence.
        apply nth_error_Some in Hsome.
        rewrite length_concat_const with (c := CW) in Hsome.
        - unfold correlate2d_full in Hsome; rewrite length_map, length_seq in Hsome.
          rewrite (proj1 ES) in Hsome; exact Hsome.
        - unfold correlate2d_full; apply Forall_forall; intros row Hrow.
          apply in_map_iff in Hrow as [i [<- _]].
          rewrite length_map, length_seq.
          rewrite (proj2 ES); reflexivity. }
      rewrite (FE k Hklt) in Hk.
      injection Hk as <-.
      apply (autocorr_strict _ h w (Z.of_nat a0) (Z.of_nat b0)).
      + apply getZ_outside.
      + rewrite getZ_inside by assumption; exact Hnz.
      + change (W + ncols Z t - 1) with CW; change (nrows Z t) with h; change (ncols Z t) with w.
        pose proof (Nat.div_mod_eq k CW) as Hdm.
        destruct (Z.eq_dec (Z.of_nat (k / CW) - Z.of_nat (h - 1) - Z.of_nat r) 0) as [E1|E1];
          [right | left; exact E1].
        intros E2; apply Hne.
        assert (k / CW = r + h - 1) by lia.
        assert (k mod CW = c + w - 1) by lia.
        unfold p; nia. }
  unfold compute_translation_vector_Z, compute_translation_vector; cbv zeta.
  rewrite Hmax.
  unfold shape; rewrite Rs, Cs; fold h w CW RH.
  destruct (unravel_index_ok p RH CW Hp) as [Hu _].
  rewrite Hu, Hpdiv, Hpmod; cbn [fst snd].
  assert (E1 : CW / 2 = (W - w + 1) / 2 + (w - 1)).
  { unfold CW; replace (W + w - 1) with ((W - w + 1) + (w - 1) * 2) by lia.
    apply Nat.div_add; lia. }
  assert (E2 : RH / 2 = (H - h + 1) / 2 + (h - 1)).
  { unfold RH; replace (H + h - 1) with ((H - h + 1) + (h - 1) * 2) by lia.
    apply Nat.div_add; lia. }
  rewrite E1, E2.
  f_equal; f_equal; lia.
Qed.

Lemma compute_translation_vector_embedded_template_witness :
  (1 <= nrows Z [[1; 2]; [3; -4]]%Z /\ 1 <= ncols Z [[1; 2]; [3; -4]]%Z /\
   1 + nrows Z [[1; 2]; [3; -4]]%Z <= 5 /\ 2 + ncols Z [[1; 2]; [3; -4]]%Z <= 6 /\
   (exists a0 b0, a0 < nrows Z [[1; 2]; [3; -4]]%Z /\ b0 < ncols Z [[1; 2]; [3; -4]]%Z /\
      get Z 0%Z [[1; 2]; [3; -4]]%Z a0 b0 <> 0%Z)) /\
  compute_translation_vector_Z (embed_template 5 6 1 2 [[1; 2]; [3; -4]]%Z) [[1; 2]; [3; -4]]%Z =
    Ok (Z.of_nat 2 - Z.of_nat ((6 - ncols Z [[1; 2]; [3; -4]]%Z + 1) / 2),
        Z.of_nat 1 - Z.of_nat ((5 - nrows Z [[1; 2]; [3; -4]]%Z + 1) / 2))%Z.
Proof.
  assert (Hne : exists a0 b0, a0 < nrows Z [[1; 2]; [3; -4]]%Z /\
                  b0 < ncols Z [[1; 2]; [3; -4]]%Z /\
                  get Z 0%Z [[1; 2]; [3; -4]]%Z a0 b0 <> 0%Z)
    by (exists 0, 0; vm_compute; repeat split; lia || discriminate).
  split; [repeat split; [vm_compute; lia .. | exact Hne]|].
  apply (compute_translation_vector_embedded_template [[1; 2]; [3; -4]]%Z 5 6 1 2);
    [vm_compute; lia .. | exact Hne].
Defined.

End TranslationProofs.

(** * Further properties of the scripts *)

Module CalibrationExtraProofs.
Import Calibration CalibrationProofs.
Local Open Scope R_scope.



Lemma sqrt_square_abs (s : R) : sqrt (s * s) = Rabs s.
Proof. apply sqrt_Rsqr_abs. Qed.

(** X2: [image_to_beam_shift] scales lengths by [|pixel_size|] and
    otherwise preserves them: the rotation and the reflection are
    isometries. *)
Theorem image_to_beam_shift_norm :
  forall (v : R * R) (s a : R),
  norm (x (image_to_beam_shift v s a), y (image_to_beam_shift v s a)) =
    Rabs s * norm v.
Proof.
  intros [vx vy] s a.
  unfold norm, image_to_beam_shift, matmul_vec, rotation_matrix; simpl.
  pose proof (sin2_cos2 (radians a)) as Hsc; unfold Rsqr in Hsc.
  set (c := cos (radians a)) in *; set (sn := sin (radians a)) in *.
  match goal with |- sqrt ?e = _ => replace e with ((s * s) * (vx * vx + vy * vy)) end.
  - rewrite sqrt_mult_alt by nra. rewrite sqrt_square_abs; reflexivity.
  - transitivity ((s * s) * (vx * vx + vy * vy) * (sn * sn + c * c));
      [rewrite Hsc; ring | ring].
Qed.

Lemma norm_scale (k a b : R) : 0 <= k -> norm (k * a, k * b) = k * norm (a, b).
Proof.
  intros Hk; unfold norm; simpl.
  replace (k * a * (k * a) + k * b * (k * b)) with ((k * k) * (a * a + b * b)) by ring.
  rewrite sqrt_mult_alt by nra; rewrite sqrt_square by exact Hk; reflexivity.
Qed.

Lemma fdiv_scale (k a b : R) : 0 < k -> fdiv (k * a) (k * b) = fdiv a b.
Proof.
  intros Hk; unfold fdiv.
  destruct (Req_EM_T (k * b) 0) as [E|E]; destruct (Req_EM_T b 0) as [F|F].
  - destruct (Rlt_dec 0 (k * a)), (Rlt_dec 0 a); try nra;
    destruct (Rlt_dec (k * a) 0), (Rlt_dec a 0); try nra; reflexivity.
  - exfalso; apply F; nra.
  - exfalso; apply E; rewrite F; ring.
  - f_equal; field; split; [exact F | lra].
Qed.

(** X3: the signed angle does not change when either vector is multiplied
    by a positive factor. *)
Theorem signed_angle_positive_scaling :
  forall (v w : R * R) (k1 k2 : R), 0 < k1 -> 0 < k2 ->
  calculate_signed_angle_between_vectors (k1 * fst v, k1 * snd v) (k2 * fst w, k2 * snd w) =
  calculate_signed_angle_between_vectors v w.
Proof.
  intros [a b] [c d] k1 k2 H1 H2; simpl.
  unfold calculate_signed_angle_between_vectors.
  rewrite !norm_scale by lra.
  replace (dot (k1 * a, k1 * b) (k2 * c, k2 * d)) with ((k1 * k2) * dot (a, b) (c, d))
    by (unfold dot; simpl; ring).
  replace (k1 * norm (a, b) * (k2 * norm (c, d))) with ((k1 * k2) * (norm (a, b) * norm (c, d)))
    by ring.
  rewrite fdiv_scale by nra.
  replace (cross (k1 * a, k1 * b) (k2 * c, k2 * d)) with ((k1 * k2) * cross (a, b) (c, d))
    by (unfold cross; simpl; ring).
  assert (Hk : 0 < k1 * k2) by nra.
  destruct (Rlt_dec (k1 * k2 * cross (a, b) (c, d)) 0), (Rlt_dec (cross (a, b) (c, d)) 0);
    try nra; reflexivity.
Qed.

Lemma signed_angle_positive_scaling_witness :
  0 < 2 /\ 0 < 3 /\
  calculate_signed_angle_between_vectors (2 * fst (1, 1), 2 * snd (1, 1)) (3 * fst (0, 1), 3 * snd (0, 1)) =
  calculate_signed_angle_between_vectors (1, 1) (0, 1).
Proof.
  split; [lra|]; split; [lra|].
  apply (signed_angle_positive_scaling (1, 1) (0, 1) 2 3); lra.
Defined.

Lemma fdegrees_fneg (z : fvalue) : fdegrees (fneg z) = fneg (fdegrees z).
Proof. destruct z; simpl; try reflexivity. f_equal; unfold degrees; ring. Qed.

Lemma fneg_fneg (z : fvalue) : fneg (fneg z) = z.
Proof. destruct z; simpl; try reflexivity. f_equal; ring. Qed.

(** X4: swapping the two vectors negates the signed angle when their cross
    product is nonzero, and leaves it unchanged when it is zero. *)
Theorem signed_angle_swap :
  forall (v w : R * R),
  calculate_signed_angle_between_vectors w v =
    if Req_EM_T (cross v w) 0 then calculate_signed_angle_between_vectors v w
    else match calculate_signed_angle_between_vectors v w with
         | Ok a => Ok (fneg a)
         | Raise e => Raise e
         end.
Proof.
  intros v w; unfold calculate_signed_angle_between_vectors.
  replace (dot w v) with (dot v w) by (unfold dot; ring).
  replace (norm w * norm v) with (norm v * norm w) by ring.
  replace (cross w v) with (- cross v w) by (unfold cross; ring).
  set (A := arccos (clip (fdiv (dot v w) (norm v * norm w)) (-1) 1)).
  destruct (Req_EM_T (cross v w) 0) as [E|E].
  - rewrite E. destruct (Rlt_dec (- 0) 0), (Rlt_dec 0 0); try lra; reflexivity.
  - destruct (Rlt_dec (- cross v w) 0), (Rlt_dec (cross v w) 0); try lra;
      rewrite ?fdegrees_fneg, ?fneg_fneg; reflexivity.
Qed.

Lemma norm_cos_sin (t : R) : norm (cos t, sin t) = 1.
Proof.
  unfold norm; simpl.
  pose proof (sin2_cos2 t) as H; unfold Rsqr in H.
  replace (cos t * cos t + sin t * sin t) with 1 by lra.
  apply sqrt_1.
Qed.

(** X5: from (1, 0) to the unit vector of angle [t] in (-pi, pi] the
    function returns [t] in degrees. *)
Theorem signed_angle_from_x_axis :
  forall t : R, - PI < t <= PI ->
  calculate_signed_angle_between_vectors (1, 0) (cos t, sin t) = Ok (Fin (degrees t)).
Proof.
  intros t Ht.
  unfold calculate_signed_angle_between_vectors.
  rewrite norm_1_0, norm_cos_sin.
  rewrite fdiv_nonzero by lra.
  replace (dot (1, 0) (cos t, sin t) / (1 * 1)) with (cos t) by (unfold dot; simpl; field).
  replace (cross (1, 0) (cos t, sin t)) with (sin t) by (unfold cross; simpl; ring).
  pose proof (COS_bound t) as Hc.
  simpl.
  replace (Rmin (Rmax (cos t) (-1)) 1) with (cos t)
    by (unfold Rmin, Rmax; repeat destruct Rle_dec; lra).
  destruct (Rle_dec (-1) (cos t)); [|lra].
  destruct (Rle_dec (cos t) 1); [|lra].
  destruct (Rle_dec 0 t) as [Hp|Hn].
  - rewrite acos_cos by lra.
    destruct (Rlt_dec (sin t) 0) as [Hs|Hs]; [|reflexivity].
    exfalso; pose proof (sin_ge_0 t Hp (proj2 Ht)); lra.
  - rewrite <- (cos_neg t), acos_cos by lra.
    destruct (Rlt_dec (sin t) 0) as [Hs|Hs].
    + simpl; rewrite Ropp_involutive; reflexivity.
    + exfalso; apply Hs, sin_lt_0_var; lra.
Qed.

Lemma signed_angle_from_x_axis_witness :
  - PI < PI / 2 <= PI /\
  calculate_signed_angle_between_vectors (1, 0) (cos (PI / 2), sin (PI / 2)) =
    Ok (Fin (degrees (PI / 2))).
Proof.
  assert (H : - PI < PI / 2 <= PI) by (pose proof PI_RGT_0; lra).
  split; [exact H|].
  apply (signed_angle_from_x_axis (PI / 2)); exact H.
Defined.

End CalibrationExtraProofs.


Module TemplateProofs.
Import Signal PyNum Template.
Local Open Scope R_scope.

Lemma py_int_nonneg (x : R) :
  0 <= x ->
  py_int x = Int_part x /\ (0 <= Int_part x)%Z /\
  IZR (Int_part x) <= x < IZR (Int_part x) + 1.
Proof.
  intros Hx; unfold py_int.
  destruct (Rle_dec 0 x) as [_|n]; [|lra].
  destruct (base_Int_part x) as [H1 H2].
  assert (Hz : (-1 < Int_part x)%Z) by (apply lt_IZR; lra).
  split; [reflexivity|]; split; [lia|lra].
Qed.

Lemma generate_template_rect {V : Type} (image : array2 V) (W : nat) (o : R) :
  Forall (fun row => length row = W) image -> 0 <= o <= 1 ->
  let k := Z.to_nat (Int_part (INR W * (1 - o))) in
  (k <= W)%nat /\
  generate_template image o = map (skipn k) image /\
  INR W * o <= INR (W - k) < INR W * o + 1.
Proof.
  intros HF Ho k.
  assert (HW : 0 <= INR W) by apply pos_INR.
  destruct (py_int_nonneg (INR W * (1 - o))) as [Hp [Hz Hb]]; [nra|].
  assert (Hk : INR k = IZR (Int_part (INR W * (1 - o)))).
  { unfold k; rewrite INR_IZR_INZ, Z2Nat.id by exact Hz; reflexivity. }
  assert (HkW : (k <= W)%nat) by (apply INR_le; nra).
  split; [exact HkW|]; split.
  - unfold generate_template; destruct image as [|row0 rows]; [reflexivity|].
    pose proof (Forall_inv HF) as Hrow0; simpl in Hrow0.
    unfold ncols; simpl hd; rewrite Hrow0, Hp.
    apply map_ext; intros row; unfold py_slice_from.
    rewrite (proj2 (Z.leb_le _ _) Hz); reflexivity.
  - rewrite minus_INR by exact HkW; split; nra.
Qed.



End TemplateProofs.

Module TileCorrectionProofs.
Import Signal SignalProofs Tiling TileCorrection TemplateProofs.
Local Open Scope R_scope.

Lemma cross_correlate_window {V : Type} vzero vadd vmul (vgtb : V -> V -> bool)
    (image template : array2 V) :
  (nrows V template <= nrows V image)%nat ->
  (ncols V template <= ncols V image)%nat ->
  exists p0 p1,
    cross_correlate V vzero vadd vmul vgtb image template = Ok (p0, p1) /\
    (0 <= p0 <= Z.of_nat (nrows V image - nrows V template))%Z /\
    (0 <= p1 <= Z.of_nat (ncols V image - ncols V template))%Z.
Proof.
  intros Hr Hc.
  unfold cross_correlate, correlate2d_valid.
  rewrite (proj2 (Nat.leb_le _ _) Hr), (proj2 (Nat.leb_le _ _) Hc); simpl.
  destruct (valid_core_shape vzero vadd vmul image template) as [Hnr [Hnc Hlen]].
  set (corr := valid_core V vzero vadd vmul image template) in *.
  destruct (argmax_lt vgtb corr) as [idx [Ha Hidx]].
  { intros Hnil; rewrite Hnil in Hlen; simpl in Hlen; nia. }
  rewrite Ha.
  unfold shape; rewrite Hnr, Hnc.
  rewrite Hlen in Hidx.
  destruct (unravel_index_ok idx _ _ Hidx) as [Hu [H0 H1]].
  rewrite Hu.
  do 2 eexists; split; [reflexivity|].
  split; lia.
Qed.

Lemma grid_rows {A : Type} (g : nat -> nat -> A) (n m : nat) :
  Forall (fun row => length row = m) (map (fun a => map (g a) (seq 0 m)) (seq 0 n)).
Proof.
  apply Forall_forall; intros row Hrow.
  apply in_map_iff in Hrow as [a [<- _]].
  rewrite length_map, length_seq; reflexivity.
Qed.

Lemma grid_ncols {A : Type} (g : nat -> nat -> A) (n m : nat) :
  ncols A (map (fun a => map (g a) (seq 0 m)) (seq 0 (S n))) = m.
Proof. unfold ncols; simpl; rewrite length_map, length_seq; reflexivity. Qed.

Lemma bin_image_256 (image : list (list R)) :
  length (concat image) = (256 * 4 * 256 * 4)%nat ->
  exists out, Binning.bin_image image 4 = Ok out /\
    nrows R out = 256%nat /\ ncols R out = 256%nat /\
    Forall (fun row => length row = 256%nat) out.
Proof.
  intros H; unfold Binning.bin_image; cbv zeta; rewrite H, Nat.eqb_refl.
  eexists; split; [reflexivity|].
  split; [unfold nrows; rewrite length_map, length_seq; reflexivity|].
  split; [apply (grid_ncols (fun a b => _) 255 256) | apply (grid_rows (fun a b => _))].
Qed.

Lemma template_cut_179 : Z.to_nat (Int_part (INR 256 * (1 - OVERLAP_FACTOR))) = 179%nat.
Proof.
  unfold OVERLAP_FACTOR, Int_part.
  rewrite INR_IZR_INZ; change (Z.of_nat 256) with 256%Z.
  rewrite <- (tech_up (IZR 256 * (1 - 3 / 10)) 180) by lra.
  reflexivity.
Qed.

(** X7: in a pass of the tile correction sub-loop on two frames of
    1024 * 1024 samples, the template keeps all 256 binned rows, so the
    peak row is always 0 and the peak column lies in [0, 179]: the
    tolerance test only checks the column and both y piezo moves are
    zero. *)
Theorem correction_peak_row_zero :
  forall (full_template_img current_img : list (list R)),
  length (concat full_template_img) = (256 * 4 * 256 * 4)%nat ->
  length (concat current_img) = (256 * 4 * 256 * 4)%nat ->
  exists c,
    correction_peak full_template_img current_img = Ok (0%Z, c) /\
    (0 <= c <= 179)%Z /\
    within_tolerance (0%Z, c) = (c <=? SHIFT_TOLERANCE_PIXELS)%Z /\
    forall PIXEL_SIZE current_image_stage_pos desired_abs_stage_pos,
      map sy (correction_moves (0%Z, c) PIXEL_SIZE current_image_stage_pos
                desired_abs_stage_pos) = [0; 0].
Proof.
  intros prev cur Hp Hc.
  destruct (bin_image_256 prev Hp) as [bp [Ebp [Rbp [Cbp Fbp]]]].
  destruct (bin_image_256 cur Hc) as [bc [Ebc [Rbc [Cbc Fbc]]]].
  unfold correction_peak; rewrite Ebp, Ebc; cbv zeta.
  destruct (generate_template_rect bp 256 OVERLAP_FACTOR Fbp) as [_ [Et _]].
  { unfold OVERLAP_FACTOR; lra. }
  rewrite template_cut_179 in Et; rewrite Et.
  assert (Hrt : nrows R (map (skipn 179) bp) = 256%nat)
    by (unfold nrows in *; rewrite length_map; exact Rbp).
  assert (Hct : ncols R (map (skipn 179) bp) = 77%nat).
  { unfold ncols in *; destruct bp as [|r0 rs]; [discriminate Rbp|].
    cbn [hd map] in Cbp |- *; rewrite length_skipn, Cbp; reflexivity. }
  destruct (cross_correlate_window 0 Rplus Rmult Rgtb bc (map (skipn 179) bp))
    as [p0 [p1 [E [H0 H1]]]]; [lia | lia |].
  rewrite Hrt, Rbc in H0; rewrite Hct, Cbc in H1; simpl in H0, H1.
  replace p0 with 0%Z in E by lia.
  exists p1; split; [exact E|]; split; [lia|]; split.
  - unfold within_tolerance; simpl; rewrite (Z.abs_eq p1) by lia; reflexivity.
  - intros ps cp dp; unfold correction_moves; simpl.
    destruct (Rlt_dec (sx dp) (sx cp)), (Rlt_dec (sy dp) (sy cp)); simpl;
      f_equal; f_equal; ring.
Qed.

Lemma correction_peak_row_zero_witness :
  length (concat [repeat 0 (256 * 4 * 256 * 4)]) = (256 * 4 * 256 * 4)%nat /\
  exists c,
    correction_peak [repeat 0 (256 * 4 * 256 * 4)] [repeat 0 (256 * 4 * 256 * 4)]
      = Ok (0%Z, c) /\
    (0 <= c <= 179)%Z /\
    within_tolerance (0%Z, c) = (c <=? SHIFT_TOLERANCE_PIXELS)%Z /\
    forall PIXEL_SIZE current_image_stage_pos desired_abs_stage_pos,
      map sy (correction_moves (0%Z, c) PIXEL_SIZE current_image_stage_pos
                desired_abs_stage_pos) = [0; 0].
Proof.
  assert (H : length (concat [repeat 0 (256 * 4 * 256 * 4)]) = (256 * 4 * 256 * 4)%nat).
  { change (concat [repeat 0 (256 * 4 * 256 * 4)])
      with (repeat 0 (256 * 4 * 256 * 4) ++ []).
    rewrite app_nil_r; apply repeat_length. }
  split; [exact H|].
  apply (correction_peak_row_zero _ _ H H).
Defined.

End TileCorrectionProofs.


Module TilingExtraProofs.
Import Tiling.

Lemma correction_loop_exit_gen {A : Type} (peak_of : A -> Z * Z) (acquire : nat -> A)
    (first : A) :
  forall fuel n current,
  n < 10 -> 10 - n <= fuel ->
  (n = 0 -> current = first) -> (0 < n -> current = acquire (n - 1)) ->
  exists m img,
    correction_loop A peak_of acquire fuel n current = Some (m, img) /\
    n <= m <= 10 /\
    (m < 10 -> within_tolerance (peak_of img) = true) /\
    (m = 0 -> img = first) /\ (0 < m -> img = acquire (m - 1)) /\
    (within_tolerance (peak_of current) = true -> m = n).
Proof.
  intros fuel; induction fuel as [|fuel IH]; intros n current Hn Hf H0 H1; [lia|].
  simpl.
  destruct (within_tolerance (peak_of current)) eqn:Ew.
  - exists n, current; split; [reflexivity|].
    repeat split; auto; lia.
  - destruct (Nat.eqb_spec n 9) as [E|E].
    + exists 10, (acquire n); split; [subst; reflexivity|].
      repeat split; try lia; intros _; f_equal; lia.
    + destruct (IH (S n) (acquire n)) as [m [img [Hl [Hb [Ht [Hz [Ha _]]]]]]];
        [lia | lia | lia | intros _; f_equal; lia|].
      exists m, img; split; [exact Hl|].
      repeat split; auto; try lia; discriminate.
Qed.

(** X8: with enough iterations the correction sub-loop ends with at most
    10 attempts; below 10 attempts the kept frame is within tolerance; the
    kept frame is the first one when no attempt was made and the last
    re-acquisition otherwise; a first frame within tolerance stops the
    loop at once. *)
Theorem correction_loop_exit :
  forall (A : Type) (peak_of : A -> Z * Z) (acquire : nat -> A) (first : A) (fuel : nat),
  10 <= fuel ->
  exists n img,
    correction_loop A peak_of acquire fuel 0 first = Some (n, img) /\
    n <= 10 /\
    (n < 10 -> within_tolerance (peak_of img) = true) /\
    (n = 0 -> img = first) /\ (0 < n -> img = acquire (n - 1)) /\
    (within_tolerance (peak_of first) = true -> n = 0).
Proof.
  intros A peak_of acquire first fuel Hf.
  destruct (correction_loop_exit_gen peak_of acquire first fuel 0 first)
    as [m [img [Hl [Hb [Ht [Hz [Ha Hw]]]]]]]; [lia | lia | auto | lia |].
  exists m, img; repeat split; auto; lia.
Qed.

Lemma correction_loop_exit_witness :
  10 <= 10 /\
  exists n img,
    correction_loop nat (fun k => (Z.of_nat k, 0%Z)) (fun k => 9 - k) 10 0 20 = Some (n, img) /\
    n <= 10 /\
    (n < 10 -> within_tolerance ((fun k => (Z.of_nat k, 0%Z)) img) = true) /\
    (n = 0 -> img = 20) /\ (0 < n -> img = (fun k => 9 - k) (n - 1)) /\
    (within_tolerance ((fun k => (Z.of_nat k, 0%Z)) 20) = true -> n = 0).
Proof.
  split; [lia|].
  apply (correction_loop_exit nat (fun k => (Z.of_nat k, 0%Z)) (fun k => 9 - k) 20 10).
  lia.
Defined.

Lemma cols_loop_seq (i : nat) :
  forall n a jb,
  cols_loop i (seq a n) jb =
    (flat_map (fun j => [StageMove i j; AcquireTile i j]) (seq a n),
     match n with O => jb | S _ => Some (a + n - 1) end).
Proof.
  induction n as [|n IH]; intros a jb; [reflexivity|].
  simpl; rewrite IH.
  destruct n as [|n]; simpl; f_equal; f_equal; lia.
Qed.

Lemma rows_loop_seq (cols : nat) :
  1 <= cols ->
  forall m b jb,
  rows_loop (seq b m) cols jb =
    Ok (flat_map (fun i =>
          flat_map (fun j => [StageMove i j; AcquireTile i j]) (seq 0 cols) ++
          (if 2 <=? cols then [CorrectionLoop i (cols - 1)] else []))
        (seq b m)).
Proof.
  intros Hc m; induction m as [|m IH]; intros b jb; [reflexivity|].
  simpl; rewrite cols_loop_seq.
  destruct cols as [|cols]; [lia|].
  rewrite IH; simpl.
  replace (cols - 0) with cols by lia.
  destruct cols as [|cols]; simpl; rewrite <- ?app_assoc; reflexivity.
Qed.

(** X9: with at least one column, the tile loop moves to and acquires
    every tile once, row by row and left to right, and runs the correction
    sub-loop once per row, after the row, for its last tile, exactly when
    a row has at least two tiles. *)
Theorem tiling_events_row_major :
  forall NO_ROWS_TO_TILE NO_COLS_TO_TILE : nat,
  1 <= NO_COLS_TO_TILE ->
  tiling_events NO_ROWS_TO_TILE NO_COLS_TO_TILE =
    Ok (flat_map (fun i =>
          flat_map (fun j => [StageMove i j; AcquireTile i j]) (seq 0 NO_COLS_TO_TILE) ++
          (if 2 <=? NO_COLS_TO_TILE then [CorrectionLoop i (NO_COLS_TO_TILE - 1)] else []))
        (seq 0 NO_ROWS_TO_TILE)).
Proof.
  intros rows cols Hc; unfold tiling_events; apply rows_loop_seq; exact Hc.
Qed.

Lemma tiling_events_row_major_witness :
  1 <= 3 /\
  tiling_events 2 3 =
    Ok (flat_map (fun i =>
          flat_map (fun j => [StageMove i j; AcquireTile i j]) (seq 0 3) ++
          (if 2 <=? 3 then [CorrectionLoop i (3 - 1)] else []))
        (seq 0 2)).
Proof. split; [lia|]. apply (tiling_events_row_major 2 3); lia. Defined.

(** X10: with no columns and at least one row, the loop variable [j] is
    never bound and the test [if j > 0] raises [NameError]. *)
Theorem tiling_events_no_columns_name_error :
  forall NO_ROWS_TO_TILE : nat, 1 <= NO_ROWS_TO_TILE ->
  tiling_events NO_ROWS_TO_TILE 0 = Raise NameError.
Proof.
  intros rows Hr; destruct rows as [|rows]; [lia|reflexivity].
Qed.

Lemma tiling_events_no_columns_name_error_witness :
  1 <= 4 /\ tiling_events 4 0 = Raise NameError.
Proof. split; [lia|]. apply (tiling_events_no_columns_name_error 4); lia. Defined.

End TilingExtraProofs.


Module CalibrationLoopProofs.
Import PyNum CalibrationLoop.
Local Open Scope R_scope.

Lemma py_sum_snoc (l : list R) (a : R) : py_sum (l ++ [a]) = py_sum l + a.
Proof. unfold py_sum; rewrite fold_left_app; reflexivity. Qed.

Section Measure.
Variable measure : nat -> R -> exc R.

Lemma calibration_loop_inv :
  forall fuel s,
  (guard_counter s <= 5)%nat -> (6 - guard_counter s <= fuel)%nat ->
  py_sum (correction_angle_list s) = image_to_beam_shift_angle s ->
  exists r s',
    calibration_loop measure fuel s = Some (r, s') /\
    (guard_counter s <= guard_counter s' <= 5)%nat /\
    ((guard_counter s < 5)%nat -> (guard_counter s < guard_counter s')%nat) /\
    py_sum (correction_angle_list s') = image_to_beam_shift_angle s' /\
    (r = Ok tt -> guard_counter s' = 5%nat \/
       exists ca, measure (guard_counter s') (image_to_beam_shift_angle s') = Ok ca /\
                  Rabs ca < 1 / 2) /\
    (forall e, r = Raise e ->
       measure (guard_counter s') (image_to_beam_shift_angle s') = Raise e).
Proof.
  intros fuel; induction fuel as [|fuel IH]; intros [g a l] Hg Hf Hs;
    cbn [guard_counter image_to_beam_shift_angle correction_angle_list] in *;
    [lia|cbn [calibration_loop guard_counter image_to_beam_shift_angle correction_angle_list]].
  destruct (Nat.leb_spec 5 g) as [E|E].
  - exists (Ok tt), (mkCalState g a l); simpl.
    split; [reflexivity|]; split; [lia|]; split; [intros; lia|]; split; [exact Hs|].
    split; [left; lia | intros e' He; discriminate].
  - destruct (measure (S g) a) as [ca|e] eqn:Em.
    + destruct (Rlt_dec (Rabs ca) (1 / 2)) as [Hca|Hca].
      * exists (Ok tt), (mkCalState (S g) a l); simpl.
        split; [reflexivity|]; split; [lia|]; split; [intros; lia|]; split; [exact Hs|].
        split; [right; exists ca; split; assumption | intros e' He; discriminate].
      * destruct (IH (mkCalState (S g) (a + ca) (l ++ [ca]))) as
          [r [s' [Hl [Hb [_ [Hs' [Hok Her]]]]]]];
          cbn [guard_counter image_to_beam_shift_angle correction_angle_list]; [lia | lia | |].
        { rewrite py_sum_snoc, Hs; reflexivity. }
        exists r, s'; cbn [guard_counter] in Hb.
        split; [exact Hl|]; split; [lia|]; split; [intros; lia|]; split; [exact Hs'|].
        split; assumption.
    + exists (Raise e), (mkCalState (S g) a l); simpl.
      split; [reflexivity|]; split; [lia|]; split; [intros; lia|]; split; [exact Hs|].
      split; [intros H; discriminate | intros e' He; inversion He; subst; exact Em].
Qed.

End Measure.

(** X11: the calibration loop stops after 1 to 5 iterations; at exit the
    printed [sum(correction_angle_list)] equals the current
    [image_to_beam_shift_angle]; a [break] happens with [guard_counter = 5]
    or on a correction angle below 0.5 degrees in absolute value, and an
    exception comes from the last measurement. *)
Theorem calibration_loop_exit :
  forall (measure : nat -> R -> exc R) (fuel : nat),
  (6 <= fuel)%nat ->
  exists r s,
    calibration_loop measure fuel initial_state = Some (r, s) /\
    (1 <= guard_counter s <= 5)%nat /\
    py_sum (correction_angle_list s) = image_to_beam_shift_angle s /\
    (r = Ok tt -> guard_counter s = 5%nat \/
       exists ca, measure (guard_counter s) (image_to_beam_shift_angle s) = Ok ca /\
                  Rabs ca < 1 / 2) /\
    (forall e, r = Raise e ->
       measure (guard_counter s) (image_to_beam_shift_angle s) = Raise e).
Proof.
  intros measure fuel Hf.
  destruct (calibration_loop_inv measure fuel initial_state) as
    [r [s [Hl [Hb [Hlt [Hs [Hok Her]]]]]]]; simpl; [lia | lia | |].
  { unfold py_sum; simpl; ring. }
  exists r, s; simpl in Hlt.
  split; [exact Hl|]; split; [lia|]; split; [exact Hs|]; split; assumption.
Qed.

Lemma calibration_loop_exit_witness :
  (6 <= 6)%nat /\
  exists r s,
    calibration_loop (fun n _ => Ok (INR n)) 6 initial_state = Some (r, s) /\
    (1 <= guard_counter s <= 5)%nat /\
    py_sum (correction_angle_list s) = image_to_beam_shift_angle s /\
    (r = Ok tt -> guard_counter s = 5%nat \/
       exists ca, (fun n (_ : R) => Ok (INR n)) (guard_counter s)
                    (image_to_beam_shift_angle s) = Ok ca /\ Rabs ca < 1 / 2) /\
    (forall e, r = Raise e ->
       (fun n (_ : R) => @Ok R (INR n)) (guard_counter s)
         (image_to_beam_shift_angle s) = Raise e).
Proof.
  split; [lia|].
  apply (calibration_loop_exit (fun n _ => Ok (INR n)) 6); lia.
Defined.

Lemma calibration_loop_agree (m1 m2 : nat -> R -> exc R) :
  (forall n a, (1 <= n <= 5)%nat -> m1 n a = m2 n a) ->
  forall fuel1 fuel2 s,
  (guard_counter s <= 5)%nat ->
  (6 - guard_counter s <= fuel1)%nat -> (6 - guard_counter s <= fuel2)%nat ->
  calibration_loop m1 fuel1 s = calibration_loop m2 fuel2 s.
Proof.
  intros Hm fuel1; induction fuel1 as [|f1 IH]; intros fuel2 [g a l] Hg H1 H2;
    cbn [guard_counter image_to_beam_shift_angle correction_angle_list] in *; [lia|].
  destruct fuel2 as [|f2]; [lia|].
  cbn [calibration_loop guard_counter image_to_beam_shift_angle correction_angle_list].
  destruct (Nat.leb_spec 5 g) as [E|E]; [reflexivity|].
  rewrite (Hm (S g) a) by lia.
  destruct (m2 (S g) a) as [ca|e]; [|reflexivity].
  destruct (Rlt_dec (Rabs ca) (1 / 2)); [reflexivity|].
  apply IH; cbn [guard_counter]; lia.
Qed.

(** X12: the calibration loop makes at most five measurements: its
    outcome only depends on the measurements of iterations 1 to 5, and six
    loop tests always suffice. *)
Theorem calibration_loop_five_attempts :
  forall (m1 m2 : nat -> R -> exc R) (fuel1 fuel2 : nat),
  (forall n a, (1 <= n <= 5)%nat -> m1 n a = m2 n a) ->
  (6 <= fuel1)%nat -> (6 <= fuel2)%nat ->
  calibration_loop m1 fuel1 initial_state = calibration_loop m2 fuel2 initial_state.
Proof.
  intros m1 m2 f1 f2 Hm H1 H2.
  apply calibration_loop_agree; [exact Hm | simpl; lia | simpl; lia | simpl; lia].
Qed.

Lemma calibration_loop_five_attempts_witness :
  (forall n (a : R), (1 <= n <= 5)%nat ->
     (fun k (_ : R) => if (k <=? 5)%nat then @Ok R 1 else Raise ValueError) n a =
     (fun _ (_ : R) => @Ok R 1) n a) /\
  (6 <= 6)%nat /\ (6 <= 100)%nat /\
  calibration_loop (fun k _ => if (k <=? 5)%nat then Ok 1 else Raise ValueError) 6 initial_state =
  calibration_loop (fun _ _ => Ok 1) 100 initial_state.
Proof.
  assert (H : forall n (a : R), (1 <= n <= 5)%nat ->
     (fun k (_ : R) => if (k <=? 5)%nat then @Ok R 1 else Raise ValueError) n a =
     (fun _ (_ : R) => @Ok R 1) n a).
  { intros n a Hn; simpl; rewrite (proj2 (Nat.leb_le n 5)) by lia; reflexivity. }
  split; [exact H|]; split; [lia|]; split; [lia|].
  apply (calibration_loop_five_attempts _ _ 6 100 H); lia.
Defined.

End CalibrationLoopProofs.


Module CalibrationGeometryProofs.
Import Calibration CalibrationProofs PyNum CalibrationLoop.
Local Open Scope R_scope.

Lemma DESIRED_SHIFT_PX_716 : DESIRED_SHIFT_PX = 716%Z.
Proof.
  unfold DESIRED_SHIFT_PX, py_int, IMAGE_SIZE, OVERLAP_FACTOR.
  destruct (Rle_dec 0 (1024 * (1 - 3 / 10))) as [_|n]; [|lra].
  unfold Int_part.
  rewrite <- (tech_up (1024 * (1 - 3 / 10)) 717) by lra.
  reflexivity.
Qed.

Lemma correction_angle_of_vectors (tx ty : Z) :
  correction_angle_of (tx, ty) =
    calculate_signed_angle_between_vectors (179, 0) (IZR tx + 537 / 2, IZR ty).
Proof.
  unfold correction_angle_of; cbv zeta.
  fold DESIRED_SHIFT_PX; rewrite DESIRED_SHIFT_PX_716.
  unfold IMAGE_SIZE, BIN_FACTOR; simpl fst; simpl snd.
  f_equal; f_equal; lra.
Qed.

(** The signed angle from a positive multiple of the x axis. *)
Lemma signed_angle_from_axis (p ax ay : R) :
  0 < p -> ax <> 0 ->
  exists a,
    calculate_signed_angle_between_vectors (p, 0) (ax, ay) = Ok (Fin a) /\
    (0 < ay -> 0 < a < 180) /\ (ay < 0 -> -180 < a < 0) /\
    (ay = 0 -> 0 < ax -> a = 0) /\ (ay = 0 -> ax < 0 -> a = 180).
Proof.
  intros Hp Hax.
  pose proof PI_RGT_0 as Hpi.
  set (n2 := norm (ax, ay)).
  assert (Hn1 : norm (p, 0) = p).
  { unfold norm; simpl; replace (p * p + 0 * 0) with (p * p) by ring.
    apply sqrt_square; lra. }
  assert (Hsq : 0 < ax * ax) by (destruct (Rlt_dec 0 ax); nra).
  assert (Hn2 : 0 < n2) by (unfold n2, norm; simpl; apply sqrt_lt_R0; nra).
  assert (Hle : Rabs ax <= n2).
  { unfold n2, norm; simpl; rewrite <- sqrt_Rsqr_abs; unfold Rsqr.
    apply sqrt_le_1_alt; nra. }
  set (c := ax / n2).
  assert (Hcn : c * n2 = ax) by (unfold c; field; lra).
  assert (Hc : -1 <= c <= 1).
  { unfold Rabs in Hle; destruct Rcase_abs in Hle; split; nra. }
  unfold calculate_signed_angle_between_vectors; fold n2.
  rewrite Hn1, fdiv_nonzero by nra.
  replace (dot (p, 0) (ax, ay) / (p * n2)) with c by (unfold dot, c; simpl; field; lra).
  replace (cross (p, 0) (ax, ay)) with (p * ay) by (unfold cross; simpl; ring).
  simpl.
  replace (Rmin (Rmax c (-1)) 1) with c by (unfold Rmin, Rmax; repeat destruct Rle_dec; lra).
  destruct (Rle_dec (-1) c); [|lra].
  destruct (Rle_dec c 1); [|lra].
  assert (Hdeg : forall t, 0 < t < PI -> 0 < degrees t < 180).
  { intros t Ht; unfold degrees; split.
    - apply Rmult_lt_0_compat; [lra | apply Rdiv_lt_0_compat; lra].
    - replace 180 with (PI * (180 / PI)) at 2 by (field; lra).
      apply Rmult_lt_compat_r; [apply Rdiv_lt_0_compat; lra | lra]. }
  destruct (Req_EM_T ay 0) as [Ey|Ey].
  - subst ay.
    assert (Habs : n2 = Rabs ax).
    { unfold n2, norm; simpl; rewrite <- sqrt_Rsqr_abs; unfold Rsqr; f_equal; ring. }
    destruct (Rlt_dec (p * 0) 0); [lra|].
    eexists; split; [reflexivity|].
    split; [lra|]; split; [lra|]; split.
    + intros _ Hpos.
      replace c with 1 by (unfold c; rewrite Habs, Rabs_pos_eq by lra; field; lra).
      rewrite acos_1; unfold degrees; ring.
    + intros _ Hneg.
      replace c with (Ropp 1) by (unfold c; rewrite Habs, Rabs_left by lra; field; lra).
      rewrite acos_opp, acos_1; unfold degrees; field; lra.
  - assert (Hlt : Rabs ax < n2).
    { unfold n2, norm; simpl; rewrite <- sqrt_Rsqr_abs; unfold Rsqr.
      apply sqrt_lt_1_alt; split; [nra|].
      assert (0 < ay * ay) by (destruct (Rlt_dec 0 ay); nra); lra. }
    assert (Hc' : -1 < c < 1).
    { unfold Rabs in Hlt; destruct Rcase_abs in Hlt; split; nra. }
    pose proof (acos_bound_lt c Hc') as Hb.
    pose proof (Hdeg _ Hb) as Hd.
    destruct (Rlt_dec (p * ay) 0) as [Hn|Hn].
    + eexists; split; [reflexivity|].
      assert (ay < 0) by nra.
      split; [lra|]; split; [|split; intros; lra].
      intros _; unfold degrees in *; lra.
    + eexists; split; [reflexivity|].
      assert (0 < ay) by (destruct (Rlt_dec 0 ay); nra).
      split; [intros _; exact Hd|]; split; intros; lra.
Qed.

(** X13: for every integer translation vector (tx, ty) the calibration
    geometry gives a finite correction angle; it is in (0, 180) when
    ty > 0, in (-180, 0) when ty < 0, and for ty = 0 it is 0 when
    tx >= -268 and 180 otherwise. *)
Theorem correction_angle_of_sign :
  forall tx ty : Z,
  exists a,
    correction_angle_of (tx, ty) = Ok (Fin a) /\
    ((0 < ty)%Z -> 0 < a < 180) /\
    ((ty < 0)%Z -> -180 < a < 0) /\
    (ty = 0%Z -> a = if (-268 <=? tx)%Z then 0 else 180).
Proof.
  intros tx ty; rewrite correction_angle_of_vectors.
  assert (Hax : IZR tx + 537 / 2 <> 0).
  { destruct (Z.leb_spec (-268) tx) as [H|H].
    - apply IZR_le in H; lra.
    - assert (Hz : (tx <= -269)%Z) by lia; apply IZR_le in Hz; lra. }
  destruct (signed_angle_from_axis 179 (IZR tx + 537 / 2) (IZR ty)) as
    [a [E [Hpos [Hneg [H0p H0n]]]]]; [lra | exact Hax |].
  exists a; split; [exact E|]; split; [|split].
  - intros H; apply Hpos; apply IZR_lt in H; exact H.
  - intros H; apply Hneg; apply IZR_lt in H; exact H.
  - intros ->.
    destruct (Z.leb_spec (-268) tx) as [H|H].
    + apply H0p; [reflexivity|]; apply IZR_le in H; lra.
    + apply H0n; [reflexivity|].
      assert (Hz : (tx <= -269)%Z) by lia; apply IZR_le in Hz; lra.
Qed.

Lemma correction_angle_of_sign_witness :
  exists a, correction_angle_of (0%Z, 3%Z) = Ok (Fin a) /\ 0 < a < 180.
Proof.
  destruct (correction_angle_of_sign 0 3) as [a [E [Hpos _]]].
  exists a; split; [exact E|]; apply Hpos; lia.
Defined.

End CalibrationGeometryProofs.
